(** * shortuuid: the base-N codec of [shortuuid/main.py]

    A shallow embedding of [int_to_string], [string_to_int] and the
    [ShortUUID] class, followed by the properties of the codec:
    round trips, fixed width, padding, alphabet normalisation and the
    error behaviour of [decode] and [set_alphabet]. *)

From Stdlib Require Import ZArith NArith String Ascii List Lia Reals Lra.
From stdpp Require Import base numbers option list sorting gmap.

#[local] Open Scope Z_scope.

(** ** Data model *)

(** A Python [str] is a sequence of code points; a character is a [str]
    of length one and is compared by its code point.  [list[str]] of
    one-character strings (the field [_alphabet]) and [str] are both
    sequences of code points. *)
Abbreviation char := N (only parsing).
Abbreviation str := (list N) (only parsing).

(** String literals of the source, as sequences of code points. *)
Fixpoint lit (s : string) : str :=
  match s with
  | EmptyString => []
  | String a s' => N_of_ascii a :: lit s'
  end.

(** [len(x)] is a Python [int]. *)
Definition len {A} (l : list A) : Z := Z.of_nat (length l).

(** The exceptions that the modelled code can raise.  [ValueError] and
    the package's [InvalidAlphabetError] carry their message. *)
Inductive exception : Type :=
| ValueError (msg : str)
| IndexError
| ZeroDivisionError
| InvalidAlphabetError (msg : str).

Inductive result (A : Type) : Type :=
| Ok (a : A)
| Raise (e : exception).
Arguments Ok {A} a.
Arguments Raise {A} e.

#[global] Instance result_ret : MRet result := λ A a, Ok a.
#[global] Instance result_bind : MBind result := λ A B k r,
  match r with
  | Ok a => k a
  | Raise e => Raise e
  end.

(** [l[i]] on a Python list: indices in [0, len) count from the front,
    indices in [-len, 0) from the back, anything else is [IndexError]. *)
Definition getitem {A} (l : list A) (i : Z) : result A :=
  let i' := if i <? 0 then len l + i else i in
  if i' <? 0 then Raise IndexError
  else match l !! Z.to_nat i' with
       | Some x => Ok x
       | None => Raise IndexError
       end.

(** [divmod(a, b)]: floor division, which is [Z.div] and [Z.modulo]. *)
Definition divmod (a b : Z) : result (Z * Z) :=
  if b =? 0 then Raise ZeroDivisionError else Ok (a / b, a mod b).

(** ** [int_to_string] *)

(** The loop [while number: number, digit = divmod(number, alpha_len);
    output += alphabet[digit]].  [fuel] bounds the number of loop tests;
    [None] means that the bound was reached before the loop ended. *)
Fixpoint int_to_string_loop (fuel : nat) (alphabet : str) (alpha_len : Z)
    (number : Z) (output : str) : option (result str) :=
  match fuel with
  | O => None
  | S fuel' =>
      if number =? 0 then Some (Ok output)
      else
        match divmod number alpha_len with
        | Raise e => Some (Raise e)
        | Ok (number', digit) =>
            match getitem alphabet digit with
            | Raise e => Some (Raise e)
            | Ok c => int_to_string_loop fuel' alphabet alpha_len number' (output ++ [c])
            end
        end
  end.

(** [if padding:] holds for an [int] other than [0]; [None] and [0] skip
    the padding. *)
Definition truthy (padding : option Z) : option Z :=
  match padding with
  | Some p => if p =? 0 then None else Some p
  | None => None
  end.

(** The padding step and the final [output[::-1]]. *)
Definition pad_and_reverse (alphabet : str) (padding : option Z) (output : str)
    : result str :=
  match truthy padding with
  | Some p =>
      a0 ← getitem alphabet 0;
      let remainder := Z.max (p - len output) 0 in
      Ok (rev (output ++ replicate (Z.to_nat remainder) a0))
  | None => Ok (rev output)
  end.

Definition int_to_string (fuel : nat) (number : Z) (alphabet : str)
    (padding : option Z) : option (result str) :=
  let alpha_len := len alphabet in
  match int_to_string_loop fuel alphabet alpha_len number [] with
  | None => None
  | Some (Raise e) => Some (Raise e)
  | Some (Ok output) => Some (pad_and_reverse alphabet padding output)
  end.

(** ** [string_to_int] *)

(** [{char: idx for idx, char in enumerate(alphabet)}]: entries are
    stored in order, a later entry for the same key replaces the
    earlier one. *)
Fixpoint index_from (idx : Z) (alphabet : str) (m : gmap N Z) : gmap N Z :=
  match alphabet with
  | [] => m
  | c :: rest => index_from (idx + 1) rest (<[c := idx]> m)
  end.

Definition make_index (alphabet : str) : gmap N Z := index_from 0 alphabet ∅.

(** The message of the f-string ['{char}' is not in alphabet]. *)
Definition not_in_alphabet (c : char) : str :=
  lit "'" ++ [c] ++ lit "' is not in alphabet".

(** The loop [for char in string: number = number * alpha_len +
    alphabet_index[char]], a [KeyError] being turned into [ValueError]. *)
Fixpoint string_to_int_loop (alpha_len : Z) (alphabet_index : gmap N Z)
    (string : str) (number : Z) : result Z :=
  match string with
  | [] => Ok number
  | c :: rest =>
      match alphabet_index !! c with
      | Some i => string_to_int_loop alpha_len alphabet_index rest (number * alpha_len + i)
      | None => Raise (ValueError (not_in_alphabet c))
      end
  end.

Definition string_to_int (string : str) (alphabet : str)
    (alphabet_index : option (gmap N Z)) : result Z :=
  let alphabet_index :=
    match alphabet_index with
    | None => make_index alphabet
    | Some m => m
    end in
  string_to_int_loop (len alphabet) alphabet_index string 0.

(** ** UUID values *)

(** [uuid.UUID] of the Python library: a value with its integer
    interpretation [int].  [UUID(int=n)] checks [0 <= n < 1 << 128] and
    raises [ValueError] otherwise. *)
Record UUID : Type := { int : Z }.

Definition out_of_range : str := lit "int is out of range (need a 128-bit value)".

Definition UUID_of_int (n : Z) : result UUID :=
  if (0 <=? n) && (n <? 2 ^ 128) then Ok {| int := n |}
  else Raise (ValueError out_of_range).

(** The UUID objects that exist at run time. *)
Definition valid_uuid (u : UUID) : Prop := 0 ≤ int u < 2 ^ 128.

(** ** Alphabet normalisation *)

(** [list(dict.fromkeys(alphabet))]: the keys of a dict in insertion
    order; a key that is already present keeps its place. *)
Fixpoint fromkeys_from (keys : str) (alphabet : str) : str :=
  match alphabet with
  | [] => keys
  | c :: rest =>
      if decide (c ∈ keys) then fromkeys_from keys rest
      else fromkeys_from (keys ++ [c]) rest
  end.

Definition fromkeys (alphabet : str) : str := fromkeys_from [] alphabet.

(** [sorted(set(alphabet))]: the set of the characters, listed in
    ascending order of code point. *)
Definition sorted_set (alphabet : str) : str :=
  merge_sort N.le (elements (list_to_set alphabet : gset N)).

(** [sep.join(parts)] for [sep = ""] and one-character parts: the
    concatenation of the parts. *)
Definition join (parts : list char) : str := concat (map (λ c, [c]) parts).

(** ** Logarithms *)

(** [math.ceil(math.log(x, base))] for integers [x >= 1] and
    [base >= 2], the logarithm being taken over the reals: the least
    [n >= 0] with [x <= base ** n].  The floating-point rounding of
    [math.log] is not part of the model.  [ceil_log_real] below relates
    the definition to the real logarithm. *)
Fixpoint ceil_log_from (fuel : nat) (base x power n : Z) : Z :=
  match fuel with
  | O => n
  | S fuel' =>
      if x <=? power then n
      else ceil_log_from fuel' base x (power * base) (n + 1)
  end.

Definition ceil_log (base x : Z) : Z :=
  ceil_log_from (Z.to_nat (Z.log2_up x)) base x 1 0.

(** The greatest [n] with [base ** n <= x]. *)
Definition floor_log (base x : Z) : Z :=
  let n := ceil_log base x in
  if base ^ n =? x then n else n - 1.

(** ** The class [ShortUUID] *)

Record ShortUUID : Type := {
  _alphabet : str;
  _alphabet_str : str;
  _alpha_len : Z;
  _alphabet_index : gmap N Z;
  _length : Z
}.

Definition set__alphabet (v : str) (self : ShortUUID) : ShortUUID :=
  {| _alphabet := v; _alphabet_str := _alphabet_str self;
     _alpha_len := _alpha_len self; _alphabet_index := _alphabet_index self;
     _length := _length self |}.
Definition set__alphabet_str (v : str) (self : ShortUUID) : ShortUUID :=
  {| _alphabet := _alphabet self; _alphabet_str := v;
     _alpha_len := _alpha_len self; _alphabet_index := _alphabet_index self;
     _length := _length self |}.
Definition set__alpha_len (v : Z) (self : ShortUUID) : ShortUUID :=
  {| _alphabet := _alphabet self; _alphabet_str := _alphabet_str self;
     _alpha_len := v; _alphabet_index := _alphabet_index self;
     _length := _length self |}.
Definition set__alphabet_index (v : gmap N Z) (self : ShortUUID) : ShortUUID :=
  {| _alphabet := _alphabet self; _alphabet_str := _alphabet_str self;
     _alpha_len := _alpha_len self; _alphabet_index := v;
     _length := _length self |}.
Definition set__length (v : Z) (self : ShortUUID) : ShortUUID :=
  {| _alphabet := _alphabet self; _alphabet_str := _alphabet_str self;
     _alpha_len := _alpha_len self; _alphabet_index := _alphabet_index self;
     _length := v |}.

Definition DEFAULT_ALPHABET : str :=
  lit "23456789ABCDEFGHJKLMNPQRSTUVWXYZabcdefghijkmnopqrstuvwxyz".

Definition more_than_one : str :=
  lit "Alphabet with more than one unique symbols required.".

(** [set_alphabet] returns the outcome of the call together with the
    object after the call. *)
Definition set_alphabet (self : ShortUUID) (alphabet : str)
    (dont_sort_alphabet : bool) : result unit * ShortUUID :=
  let new_alphabet :=
    if dont_sort_alphabet then fromkeys alphabet else sorted_set alphabet in
  if len new_alphabet <=? 1 then
    (Raise (InvalidAlphabetError more_than_one), self)
  else
    let self := set__alphabet new_alphabet self in
    let self := set__alphabet_str (join new_alphabet) self in
    let self := set__alpha_len (len (_alphabet self)) self in
    let self := set__alphabet_index (make_index (_alphabet self)) self in
    let self := set__length (ceil_log (_alpha_len self) (2 ^ 128)) self in
    (Ok (), self).

(** The object handed to [__init__]: none of its slots is assigned yet,
    and [__init__] reads none of them before [set_alphabet] assigns them
    all. *)
Definition blank : ShortUUID :=
  {| _alphabet := []; _alphabet_str := []; _alpha_len := 0;
     _alphabet_index := ∅; _length := 0 |}.

(** [ShortUUID(alphabet, dont_sort_alphabet=...)]: the constructed
    object, or the exception of [__init__]. *)
Definition init (alphabet : option str) (dont_sort_alphabet : bool)
    : result ShortUUID :=
  let alphabet :=
    match alphabet with
    | None => DEFAULT_ALPHABET
    | Some a => a
    end in
  match set_alphabet blank alphabet dont_sort_alphabet with
  | (Ok _, self) => Ok self
  | (Raise e, _) => Raise e
  end.

Definition get_alphabet (self : ShortUUID) : str := _alphabet_str self.

(** [encode]: the argument is a [UUID] by its type, so the [isinstance]
    test passes. *)
Definition encode (fuel : nat) (self : ShortUUID) (uuid : UUID)
    (pad_length : option Z) : option (result str) :=
  let pad_length :=
    match pad_length with
    | None => _length self
    | Some p => p
    end in
  int_to_string fuel (int uuid) (_alphabet self) (Some pad_length).

(** [decode]: the argument is a [str] by its type. *)
Definition decode (self : ShortUUID) (string : str) (legacy : bool)
    : result UUID :=
  let string := if legacy then rev string else string in
  n ← string_to_int string (_alphabet self) (Some (_alphabet_index self));
  UUID_of_int n.

(** [encoded_length]: [ceil(num_bytes * log(256) / log(alpha_len))],
    which over the reals is the least [n] with
    [256 ** num_bytes <= alpha_len ** n] (for a negative [num_bytes],
    minus the greatest [n] with [alpha_len ** n <= 256 ** -num_bytes]). *)
Definition encoded_length (self : ShortUUID) (num_bytes : Z) : Z :=
  if num_bytes <? 0 then - floor_log (_alpha_len self) (256 ^ (- num_bytes))
  else ceil_log (_alpha_len self) (256 ^ num_bytes).

(** The instance created by [ShortUUID()], which is also the module's
    [_global_instance]. *)
Definition default_instance : ShortUUID :=
  match init None false with
  | Ok self => self
  | Raise _ => blank
  end.

(** ** [random] and [uuid] *)

(** What [random] and [uuid] obtain from the Python library during one
    call: [randbelow k n] is the result of the [k]-th call of
    [SystemRandom._randbelow(n)], [uuid4] the result of [uuid.uuid4()],
    [uuid5 namespace name] the result of [uuid.uuid5(namespace, name)] and
    [lower] the method [str.lower]. *)
Record library : Type := {
  randbelow : nat → Z → Z;
  uuid4 : UUID;
  uuid5 : UUID → str → UUID;
  lower : str → str
}.

(** What the Python library promises: [_randbelow(n)] lies in
    [range(n)], and the generated UUIDs are UUID objects. *)
Record library_ok (lib : library) : Prop := {
  randbelow_range : ∀ k n, 0 < n → 0 ≤ randbelow lib k n < n;
  uuid4_valid : valid_uuid (uuid4 lib);
  uuid5_valid : ∀ namespace name, valid_uuid (uuid5 lib namespace name)
}.

(** [secrets.choice(seq)], the [k]-th draw of the call: [IndexError] on
    an empty sequence, [seq[_randbelow(len(seq))]] otherwise. *)
Definition choice (lib : library) (k : nat) (seq : str) : result char :=
  if len seq =? 0 then Raise IndexError
  else getitem seq (randbelow lib k (len seq)).

(** The generator [secrets.choice(alphabet) for _ in range(count)], run
    to its end; [k] draws were made before. *)
Fixpoint random_chars (lib : library) (alphabet : str) (k count : nat)
    : result (list char) :=
  match count with
  | O => Ok []
  | S count' =>
      c ← choice lib k alphabet;
      rest ← random_chars lib alphabet (S k) count';
      Ok (c :: rest)
  end.

Definition random (lib : library) (self : ShortUUID) (length : option Z)
    : result str :=
  let length :=
    match length with
    | None => _length self
    | Some n => n
    end in
  parts ← random_chars lib (_alphabet self) 0 (Z.to_nat length);
  Ok (join parts).

(** [s.startswith(prefix)]. *)
Fixpoint startswith (s prefix : str) : bool :=
  match prefix, s with
  | [], _ => true
  | p :: prefix', c :: s' => (c =? p)%N && startswith s' prefix'
  | _ :: _, [] => false
  end.

(** The namespaces of the Python library. *)
Definition NAMESPACE_DNS : UUID := {| int := 0x6ba7b8109dad11d180b400c04fd430c8 |}.
Definition NAMESPACE_URL : UUID := {| int := 0x6ba7b8119dad11d180b400c04fd430c8 |}.

Definition uuid (lib : library) (fuel : nat) (self : ShortUUID)
    (name : option str) (pad_length : option Z) : option (result str) :=
  let pad_length :=
    match pad_length with
    | None => _length self
    | Some p => p
    end in
  let u :=
    match name with
    | None => uuid4 lib
    | Some name =>
        if startswith (lower lib name) (lit "http://")
           || startswith (lower lib name) (lit "https://")
        then uuid5 lib NAMESPACE_URL name
        else uuid5 lib NAMESPACE_DNS name
    end in
  encode fuel self u (Some pad_length).

(** ** [django_fields.ShortUUIDField] *)

Module django_fields.

(** The attributes that [__init__] assigns, and the [max_length] that
    it hands to [CharField.__init__]. *)
Record ShortUUIDField : Type := {
  length : Z;
  prefix : str;
  dont_sort_alphabet : bool;
  alphabet : option str;
  max_length : Z
}.

(** The keyword arguments that [__init__] reads; a missing key is
    [None].  The other arguments go to [CharField] unchanged. *)
Record kwargs : Type := {
  kw_length : option Z;
  kw_prefix : option str;
  kw_dont_sort_alphabet : option bool;
  kw_max_length : option Z;
  kw_alphabet : option str
}.

Definition __init__ (kw : kwargs) : ShortUUIDField :=
  let length := default 22 (kw_length kw) in
  let prefix := default [] (kw_prefix kw) in
  let dont_sort_alphabet := default false (kw_dont_sort_alphabet kw) in
  let max_length :=
    match kw_max_length kw with
    | None => length + len prefix
    | Some m => m
    end in
  {| length := length; prefix := prefix;
     dont_sort_alphabet := dont_sort_alphabet;
     alphabet := kw_alphabet kw; max_length := max_length |}.

Definition _generate_uuid (lib : library) (self : ShortUUIDField) : result str :=
  su ← init (alphabet self) (dont_sort_alphabet self);
  r ← random lib su (Some (length self));
  Ok (prefix self ++ r).

End django_fields.

(** ** Reference definitions

    The notions that the specification uses to describe the codec,
    written independently of the loops above. *)

(** The base-[base] digits of [n], least significant first. *)
Fixpoint digits_lsb (fuel : nat) (base n : Z) : list Z :=
  match fuel with
  | O => []
  | S fuel' => if n <=? 0 then [] else n mod base :: digits_lsb fuel' base (n / base)
  end.

(** The base-[base] digits of [n], most significant first, without
    leading zero; no digit at all for [0]. *)
Definition base_digits (base n : Z) : list Z :=
  rev (digits_lsb (Z.to_nat n) base n).

(** The number that a sequence of digits denotes, most significant
    digit first. *)
Definition eval_digits (base : Z) (ds : list Z) : Z :=
  fold_left (λ acc d, acc * base + d) ds 0.

(** [symbols alphabet raw ds]: [raw] spells the digits [ds] with the
    symbols of [alphabet], the digit [d] being written [alphabet[d]]. *)
Definition symbols (alphabet : str) (raw : str) (ds : list Z) : Prop :=
  Forall2 (λ c d, 0 ≤ d ∧ alphabet !! Z.to_nat d = Some c) raw ds.

(** The distinct elements of a list in the order of their first
    occurrence. *)
Fixpoint first_occurrences (l : list N) : list N :=
  match l with
  | [] => []
  | x :: rest => x :: filter (λ y, y ≠ x) (first_occurrences rest)
  end.

(** ** Object states *)

(** The normalisation step of [set_alphabet]. *)
Definition normalized (alphabet : str) (dont_sort_alphabet : bool) : str :=
  if dont_sort_alphabet then fromkeys alphabet else sorted_set alphabet.

(** The object that a successful [set_alphabet] leaves behind. *)
Definition configured_with (new_alphabet : str) : ShortUUID :=
  {| _alphabet := new_alphabet; _alphabet_str := new_alphabet;
     _alpha_len := len new_alphabet; _alphabet_index := make_index new_alphabet;
     _length := ceil_log (len new_alphabet) (2 ^ 128) |}.

(** What [set_alphabet] establishes, and every method relies on. *)
Record configured (self : ShortUUID) : Prop := {
  cfg_nodup : NoDup (_alphabet self);
  cfg_size : 2 ≤ len (_alphabet self);
  cfg_str : _alphabet_str self = _alphabet self;
  cfg_alpha_len : _alpha_len self = len (_alphabet self);
  cfg_index : _alphabet_index self = make_index (_alphabet self);
  cfg_length : _length self = ceil_log (len (_alphabet self)) (2 ^ 128)
}.

(** The objects of class [ShortUUID] that a program can hold: the
    constructor returned them, and [set_alphabet] may have been called
    on them any number of times, with or without success. *)
Inductive reachable : ShortUUID → Prop :=
| reachable_init alphabet d self :
    init alphabet d = Ok self → reachable self
| reachable_set_alphabet self alphabet d r self' :
    reachable self → set_alphabet self alphabet d = (r, self') → reachable self'.

(** ** Tests of the model on the examples of [test_shortuuid.py] *)

Definition example_uuid : UUID := {| int := 0x3b1f8b40222c4a6eb77e779d5a94e21c |}.

(** A library for the tests: the [k]-th draw is [k] modulo the bound,
    and the generated UUIDs are fixed by the arguments. *)
Definition example_library : library :=
  {| randbelow := λ k n, Z.of_nat k mod n;
     uuid4 := example_uuid;
     uuid5 := λ namespace name, {| int := (int namespace + len name) mod 2 ^ 128 |};
     lower := λ s, s |}.

Example test_default_alphabet : get_alphabet default_instance = DEFAULT_ALPHABET.
Proof. vm_compute. reflexivity. Qed.

Example test_encoding :
  encode 200 default_instance example_uuid None = Some (Ok (lit "CXc85b4rqinB7s5J52TRYb")).
Proof. vm_compute. reflexivity. Qed.

Example test_decoding :
  decode default_instance (lit "CXc85b4rqinB7s5J52TRYb") false = Ok example_uuid.
Proof. vm_compute. reflexivity. Qed.

Example test_encoded_length :
  encoded_length default_instance 16 = 22 ∧
  encoded_length default_instance 8 = 11 ∧
  encoded_length (configured_with (lit "01")) 16 = 128 ∧
  encoded_length (configured_with (sorted_set (lit
    "ABCDEFGHIJKLMNOPQRSTUVWXYZabcdefghijklmnopqrstuvwxyz0123456789+/"))) 16 = 22.
Proof. vm_compute. auto. Qed.

Example test_binary_alphabet :
  init (Some (lit "01")) false ≫= (λ su, Ok (get_alphabet su, _length su)) =
    Ok (lit "01", 128) ∧
  (λ r, match r with Some (Ok s) => Some (len s) | _ => None end)
    (encode 129 (configured_with (lit "01")) example_uuid None) = Some 128.
Proof. vm_compute. auto. Qed.

(** * Properties *)

(** ** The symbol-to-index map *)

Lemma index_from_notin (alphabet : str) : ∀ idx m c,
  c ∉ alphabet → index_from idx alphabet m !! c = m !! c.
Proof.
  induction alphabet as [|a rest IH]; intros idx m c Hc; simpl; [done|].
  apply not_elem_of_cons in Hc as [Hne Hc].
  rewrite IH by done. by rewrite lookup_insert_ne.
Qed.

Lemma index_from_lookup (alphabet : str) : ∀ idx m k c,
  NoDup alphabet → alphabet !! k = Some c →
  index_from idx alphabet m !! c = Some (idx + Z.of_nat k).
Proof.
  induction alphabet as [|a rest IH]; intros idx m k c Hnd Hk; [done|].
  apply NoDup_cons in Hnd as [Ha Hnd]. destruct k as [|k]; simpl in *.
  - injection Hk as ->. rewrite index_from_notin by done.
    rewrite lookup_insert_eq. f_equal. lia.
  - rewrite (IH _ _ k c) by done. f_equal. lia.
Qed.

Lemma make_index_lookup (alphabet : str) k c :
  NoDup alphabet → alphabet !! k = Some c →
  make_index alphabet !! c = Some (Z.of_nat k).
Proof. intros Hnd Hk. unfold make_index. by rewrite (index_from_lookup _ _ _ k c). Qed.

Lemma index_from_is_Some (alphabet : str) : ∀ idx m c,
  is_Some (index_from idx alphabet m !! c) ↔ c ∈ alphabet ∨ is_Some (m !! c).
Proof.
  induction alphabet as [|a rest IH]; intros idx m c; simpl.
  - rewrite elem_of_nil. tauto.
  - rewrite IH, elem_of_cons. destruct (decide (a = c)) as [->|Hne].
    + rewrite lookup_insert_eq. split; [auto|]. intros _. right. by eexists.
    + rewrite lookup_insert_ne by done. split; [tauto|].
      intros [[Heq|?]|?]; [congruence|tauto..].
Qed.

(** The index map has exactly the symbols of the alphabet as keys. *)
Lemma make_index_is_Some (alphabet : str) c :
  is_Some (make_index alphabet !! c) ↔ c ∈ alphabet.
Proof.
  unfold make_index. rewrite index_from_is_Some, lookup_empty.
  split; [intros [?|[? ?]]; [done|discriminate]|auto].
Qed.

Lemma make_index_None (alphabet : str) c :
  make_index alphabet !! c = None ↔ c ∉ alphabet.
Proof. rewrite <- make_index_is_Some, eq_None_not_Some. done. Qed.

(** ** Base-N digits *)

Section Digits.
Variable base : Z.
Hypothesis base_ge_2 : 2 ≤ base.

Lemma div_base_lt n : 0 < n → 0 ≤ n / base < n.
Proof.
  intros Hn. split; [apply Z.div_pos; lia|].
  apply Z.div_lt; lia.
Qed.

Lemma digits_lsb_fuel f1 : ∀ f2 n,
  n ≤ Z.of_nat f1 → n ≤ Z.of_nat f2 →
  digits_lsb f1 base n = digits_lsb f2 base n.
Proof using base_ge_2.
  induction f1 as [|f1 IH]; intros [|f2] n H1 H2; simpl;
    destruct (Z.leb_spec n 0) as [Hn|Hn]; try done; try lia.
  f_equal. pose proof (div_base_lt n Hn). apply IH; lia.
Qed.

Lemma base_digits_0 : base_digits base 0 = [].
Proof. reflexivity. Qed.

Lemma base_digits_step n :
  0 < n → base_digits base n = base_digits base (n / base) ++ [n mod base].
Proof using base_ge_2.
  intros Hn. unfold base_digits.
  destruct (Z.to_nat n) as [|f] eqn:Hf; [lia|]. simpl.
  destruct (Z.leb_spec n 0); [lia|]. simpl. f_equal. f_equal.
  pose proof (div_base_lt n Hn). apply digits_lsb_fuel; lia.
Qed.

Lemma eval_digits_snoc ds d :
  eval_digits base (ds ++ [d]) = eval_digits base ds * base + d.
Proof. unfold eval_digits. by rewrite fold_left_app. Qed.

(** Induction on a number along the loop of [int_to_string]. *)
Lemma digit_induction (P : Z → Prop) :
  P 0 → (∀ n, 0 < n → P (n / base) → P n) → ∀ n, 0 ≤ n → P n.
Proof using base_ge_2.
  intros H0 Hstep. apply Zlt_0_ind. intros n IH Hnn.
  destruct (Z.eq_dec n 0) as [->|Hne]; [done|].
  apply Hstep; [lia|]. apply IH. apply div_base_lt. lia.
Qed.

Lemma base_digits_range n :
  0 ≤ n → Forall (λ d, 0 ≤ d < base) (base_digits base n).
Proof using base_ge_2.
  revert n. apply digit_induction; [constructor|]. intros n Hn IH.
  rewrite base_digits_step by done. apply Forall_app. split; [done|].
  constructor; [|constructor]. apply Z.mod_pos_bound. lia.
Qed.

Lemma eval_base_digits n :
  0 ≤ n → eval_digits base (base_digits base n) = n.
Proof using base_ge_2.
  revert n. apply digit_induction; [done|]. intros n Hn IH.
  rewrite base_digits_step, eval_digits_snoc, IH by done.
  rewrite (Z.div_mod n base) at 3 by lia. lia.
Qed.

(** The most significant digit is not zero. *)
Lemma base_digits_head n :
  0 ≤ n → head (base_digits base n) ≠ Some 0.
Proof using base_ge_2.
  revert n. apply digit_induction; [done|]. intros n Hn IH.
  rewrite base_digits_step by done.
  destruct (base_digits base (n / base)) as [|d ds] eqn:Hds; simpl in *; [|done].
  assert (n / base = 0) as Hq.
  { destruct (Z.eq_dec (n / base) 0) as [|Hne]; [done|].
    pose proof (div_base_lt n Hn).
    rewrite base_digits_step in Hds by lia. by destruct (base_digits base (n / base / base)). }
  intros [= Hm]. pose proof (Z.div_mod n base). lia.
Qed.

(** A number below [base ^ k] has at most [k] digits. *)
Lemma base_digits_length n : 0 ≤ n → ∀ k,
  0 ≤ k → n < base ^ k → len (base_digits base n) ≤ k.
Proof using base_ge_2.
  revert n.
  apply (digit_induction (λ n, ∀ k, 0 ≤ k → n < base ^ k → len (base_digits base n) ≤ k));
    [unfold len; simpl; lia|].
  intros n Hn IH k Hk Hlt. rewrite base_digits_step by done.
  unfold len in *. rewrite length_app. simpl.
  destruct (Z.eq_dec k 0) as [->|Hk0]; [simpl in Hlt; lia|].
  specialize (IH (k - 1)). 
  replace k with (Z.succ (k - 1)) in Hlt by lia.
  rewrite Z.pow_succ_r in Hlt by lia.
  assert (n / base < base ^ (k - 1)) by (apply Z.div_lt_upper_bound; lia).
  lia.
Qed.

(** A number that is at least [base ^ k] has more than [k] digits. *)
Lemma base_digits_length_lower n : 0 ≤ n → ∀ k,
  0 ≤ k → base ^ k ≤ n → k < len (base_digits base n).
Proof using base_ge_2.
  revert n.
  apply (digit_induction (λ n, ∀ k, 0 ≤ k → base ^ k ≤ n → k < len (base_digits base n))).
  - intros k Hk Hle. pose proof (Z.pow_pos_nonneg base k). lia.
  - intros n Hn IH k Hk Hle. rewrite base_digits_step by done.
    unfold len in *. rewrite length_app. simpl.
    destruct (Z.eq_dec k 0) as [->|Hk0]; [lia|].
    specialize (IH (k - 1)).
    replace k with (Z.succ (k - 1)) in Hle by lia.
    rewrite Z.pow_succ_r in Hle by lia.
    assert (base ^ (k - 1) ≤ n / base) by (apply Z.div_le_lower_bound; lia).
    lia.
Qed.
(** Digits in range without a leading zero denote a positive number,
unless there is no digit. *)
Lemma eval_digits_pos ds :
  Forall (λ d, 0 ≤ d < base) ds → ds ≠ [] → head ds ≠ Some 0 →
  0 < eval_digits base ds.
Proof using base_ge_2.
  induction ds as [|d ds IH] using rev_ind; intros Hrange Hne Hhead; [done|].
  rewrite eval_digits_snoc. apply Forall_app in Hrange as [Hds Hd].
  apply Forall_inv in Hd. destruct ds as [|d' ds].
  - simpl in *. change (eval_digits base []) with 0.
    destruct (Z.eq_dec d 0); [congruence|lia].
  - specialize (IH Hds ltac:(done) Hhead). nia.
Qed.

(** The representation is unique: digits in range without a leading zero
are the digits of the number that they denote. *)
Lemma base_digits_unique ds :
  Forall (λ d, 0 ≤ d < base) ds → head ds ≠ Some 0 →
  base_digits base (eval_digits base ds) = ds.
Proof using base_ge_2.
  induction ds as [|d ds IH] using rev_ind; intros Hrange Hhead; [done|].
  pose proof (eval_digits_pos _ Hrange ltac:(by destruct ds) Hhead) as Hpos.
  apply Forall_app in Hrange as [Hds Hd]. apply Forall_inv in Hd.
  rewrite base_digits_step by done. rewrite eval_digits_snoc in *.
  assert ((eval_digits base ds * base + d) / base = eval_digits base ds) as ->.
  { rewrite Z.div_add_l by lia. rewrite Z.div_small by done. lia. }
  assert ((eval_digits base ds * base + d) mod base = d) as ->.
  { rewrite Z.add_comm, Z.mod_add by lia. by apply Z.mod_small. }
  f_equal. apply IH; [done|]. by destruct ds.
Qed.
End Digits.

(** ** [int_to_string] writes the digits of the number *)

Lemma symbols_length alphabet raw ds : symbols alphabet raw ds → length raw = length ds.
Proof. apply Forall2_length. Qed.

Lemma symbols_elem_of alphabet raw ds c : symbols alphabet raw ds → c ∈ raw → c ∈ alphabet.
Proof.
  intros Hs Hc. induction Hs as [|c' d raw ds [_ Hd] _ IH]; [by apply elem_of_nil in Hc|].
  apply elem_of_cons in Hc as [->|Hc]; [|by apply IH].
  by eapply list_elem_of_lookup_2.
Qed.

Lemma int_to_string_loop_S fuel (alphabet : str) alpha_len number output :
  int_to_string_loop (S fuel) alphabet alpha_len number output =
    if number =? 0 then Some (Ok output)
    else match divmod number alpha_len with
         | Raise e => Some (Raise e)
         | Ok (number', digit) =>
             match getitem alphabet digit with
             | Raise e => Some (Raise e)
             | Ok c => int_to_string_loop fuel alphabet alpha_len number' (output ++ [c])
             end
         end.
Proof. reflexivity. Qed.

Lemma getitem_0 (alphabet : str) a0 :
  alphabet !! 0%nat = Some a0 → getitem alphabet 0 = Ok a0.
Proof.
  intros Ha0. destruct alphabet as [|x rest]; [done|].
  injection Ha0 as ->. reflexivity.
Qed.

Lemma rev_replicate (k : nat) (a0 : N) : rev (replicate k a0) = replicate k a0.
Proof. rewrite rev_alt. apply reverse_replicate. Qed.

Lemma pad_and_reverse_None (alphabet : str) output :
  pad_and_reverse alphabet None output = Ok (rev output).
Proof. reflexivity. Qed.

Lemma pad_and_reverse_Some (alphabet : str) p output a0 :
  alphabet !! 0%nat = Some a0 →
  pad_and_reverse alphabet (Some p) output =
    Ok (replicate (Z.to_nat (p - len output)) a0 ++ rev output).
Proof.
  intros Ha0. unfold pad_and_reverse, truthy.
  destruct (Z.eqb_spec p 0) as [->|Hp].
  - replace (Z.to_nat (0 - len output)) with 0%nat by (unfold len; lia). done.
  - rewrite (getitem_0 alphabet a0 Ha0). cbn [mbind result_bind].
    rewrite rev_app_distr, rev_replicate. do 3 f_equal. lia.
Qed.

Section Codec.
Variable alphabet : str.
Hypothesis alphabet_size : 2 ≤ len alphabet.

#[local] Abbreviation base := (len alphabet).

Lemma getitem_digit n : ∃ c,
  getitem alphabet (n mod base) = Ok c ∧ alphabet !! Z.to_nat (n mod base) = Some c.
Proof using alphabet_size.
  pose proof (Z.mod_pos_bound n base ltac:(lia)) as Hd.
  unfold getitem. destruct (Z.ltb_spec (n mod base) 0); [lia|].
  destruct (Z.ltb_spec (n mod base) 0); [lia|].
  destruct (alphabet !! Z.to_nat (n mod base)) as [c|] eqn:Hc; [by exists c|].
  apply lookup_ge_None in Hc. unfold len in *. lia.
Qed.

Lemma getitem_first : ∃ a0, getitem alphabet 0 = Ok a0 ∧ alphabet !! 0%nat = Some a0.
Proof using alphabet_size.
  destruct alphabet as [|a0 rest]; [unfold len in *; simpl in *; lia|].
  by exists a0.
Qed.

(** With [n < 2 ^ f], [f + 1] loop tests end the loop, and the loop
    has appended the digits of [n], least significant first. *)
Lemma int_to_string_loop_digits (f : nat) : ∀ n output,
  0 ≤ n < 2 ^ Z.of_nat f →
  ∃ raw, symbols alphabet raw (base_digits base n) ∧
    int_to_string_loop (S f) alphabet base n output = Some (Ok (output ++ rev raw)).
Proof using alphabet_size.
  assert (2 ≤ base) as Hb by done.
  induction f as [|f IH]; intros n output Hn.
  - assert (n = 0) as -> by (simpl in Hn; lia).
    exists []. split; [constructor|]. simpl. by rewrite app_nil_r.
  - destruct (Z.eq_dec n 0) as [->|Hne].
    { exists []. split; [constructor|]. simpl. by rewrite app_nil_r. }
    rewrite int_to_string_loop_S. destruct (Z.eqb_spec n 0) as [|_]; [done|].
    unfold divmod. destruct (Z.eqb_spec base 0) as [|_]; [lia|].
    destruct (getitem_digit n) as (c & -> & Hc).
    destruct (IH (n / base) (output ++ [c])) as (raw & Hraw & ->).
    { split; [apply Z.div_pos; lia|].
      rewrite Nat2Z.inj_succ, Z.pow_succ_r in Hn by lia.
      apply Z.div_lt_upper_bound; nia. }
    exists (raw ++ [c]). split.
    + rewrite base_digits_step by lia. apply Forall2_app; [done|].
      constructor; [|constructor]. split; [|done].
      apply Z.mod_pos_bound. lia.
    + by rewrite rev_unit, <- app_assoc.
Qed.

(** The number of loop tests that [int_to_string] needs for [n]. *)
Lemma enough_fuel n fuel :
  0 ≤ n → (Z.to_nat (Z.log2 n) + 2 ≤ fuel)%nat →
  ∃ f, fuel = S f ∧ 0 ≤ n < 2 ^ Z.of_nat f.
Proof.
  intros Hn Hfuel. destruct fuel as [|f]; [lia|]. exists f. split; [done|].
  split; [done|]. destruct (Z.eq_dec n 0) as [->|Hne]; [apply Z.pow_pos_nonneg; lia|].
  apply Z.log2_lt_pow2; [lia|]. pose proof (Z.log2_nonneg n). lia.
Qed.

Lemma int_to_string_digits fuel n padding :
  0 ≤ n → (Z.to_nat (Z.log2 n) + 2 ≤ fuel)%nat →
  ∃ raw, symbols alphabet raw (base_digits base n) ∧
    int_to_string fuel n alphabet padding =
      Some (pad_and_reverse alphabet padding (rev raw)).
Proof using alphabet_size.
  intros Hn Hfuel. destruct (enough_fuel n fuel Hn Hfuel) as (f & -> & Hf).
  destruct (int_to_string_loop_digits f n [] Hf) as (raw & Hraw & Hloop).
  exists raw. split; [done|]. unfold int_to_string. by rewrite Hloop.
Qed.

End Codec.

(** With a single symbol the loop of [int_to_string] does not end, and
    with none it divides by zero: the codec needs two symbols. *)
Lemma int_to_string_loop_one_symbol a fuel : ∀ number output,
  number ≠ 0 → int_to_string_loop fuel [a] 1 number output = None.
Proof.
  induction fuel as [|fuel IH]; intros number output Hne; [done|].
  rewrite int_to_string_loop_S. destruct (Z.eqb_spec number 0); [done|].
  unfold divmod. simpl (1 =? 0). rewrite Z.div_1_r, Z.mod_1_r. simpl. by apply IH.
Qed.

Lemma int_to_string_no_symbol fuel number padding :
  number ≠ 0 → int_to_string (S fuel) number [] padding = Some (Raise ZeroDivisionError).
Proof.
  intros Hne. unfold int_to_string. rewrite int_to_string_loop_S.
  by destruct (Z.eqb_spec number 0).
Qed.

(** C4: for a non-negative [n] and an alphabet (at least two symbols),
    [int_to_string] returns the raw digits of [n] in base [len(alphabet)],
    most significant first, written with the symbols of the alphabet
    (no symbol at all when [n] is [0]).  With a [padding] larger than the
    raw length the raw output is left-padded with [alphabet[0]] to exactly
    [padding] symbols; with no [padding], or one that the raw output
    already reaches, the raw output is returned as it is, never cut. *)
Theorem int_to_string_pads_raw_digits (fuel : nat) (n : Z) (alphabet : str)
    (padding : option Z) :
  0 ≤ n → 2 ≤ len alphabet → (Z.to_nat (Z.log2 n) + 2 ≤ fuel)%nat →
  ∃ raw a0 out,
    symbols alphabet raw (base_digits (len alphabet) n) ∧
    (n = 0 → raw = []) ∧
    alphabet !! 0%nat = Some a0 ∧
    int_to_string fuel n alphabet padding = Some (Ok out) ∧
    (∀ p, padding = Some p → len raw < p →
       out = replicate (Z.to_nat (p - len raw)) a0 ++ raw ∧ len out = p) ∧
    (padding = None ∨ (∃ p, padding = Some p ∧ p ≤ len raw) → out = raw).
Proof.
  intros Hn Hsize Hfuel.
  destruct (int_to_string_digits alphabet Hsize fuel n padding Hn Hfuel)
    as (raw & Hraw & Hrun).
  destruct (getitem_first alphabet Hsize) as (a0 & _ & Ha0).
  assert (len (rev raw) = len raw) as Hlen by (unfold len; by rewrite length_rev).
  exists raw, a0. destruct padding as [p|].
  - rewrite (pad_and_reverse_Some alphabet p (rev raw) a0 Ha0) in Hrun.
    rewrite rev_involutive, Hlen in Hrun. eexists. split; [done|].
    split; [intros ->; by inversion Hraw|]. split; [done|]. split; [done|]. split.
    + intros p' [= <-] Hp. split; [done|].
      unfold len in *. rewrite length_app, length_replicate. lia.
    + intros [[=]|(p' & [= <-] & Hp)].
      by replace (Z.to_nat (p - len raw)) with 0%nat by lia.
  - rewrite pad_and_reverse_None, rev_involutive in Hrun. exists raw.
    split; [done|]. split; [intros ->; by inversion Hraw|].
    split; [done|]. split; [done|]. split; [by intros p [=]|done].
Qed.

Lemma int_to_string_pads_raw_digits_witness :
  ∃ raw a0 out,
    symbols (lit "01") raw (base_digits 2 5) ∧
    (5 = 0 → raw = []) ∧
    lit "01" !! 0%nat = Some a0 ∧
    int_to_string 10 5 (lit "01") (Some 8) = Some (Ok out) ∧
    (∀ p, Some 8 = Some p → len raw < p →
       out = replicate (Z.to_nat (p - len raw)) a0 ++ raw ∧ len out = p) ∧
    (Some 8 = None ∨ (∃ p, Some 8 = Some p ∧ p ≤ len raw) → out = raw).
Proof.
  apply (int_to_string_pads_raw_digits 10 5 (lit "01") (Some 8)).
  - lia.
  - vm_compute. discriminate.
  - vm_compute. lia.
Defined.

Example test_padding :
  int_to_string 10 5 (lit "01") (Some 8) = Some (Ok (lit "00000101")) ∧
  int_to_string 10 5 (lit "01") None = Some (Ok (lit "101")) ∧
  int_to_string 10 5 (lit "01") (Some 2) = Some (Ok (lit "101")) ∧
  int_to_string 10 0 (lit "01") None = Some (Ok []).
Proof. vm_compute. auto. Qed.

(** ** [string_to_int] reads the digits back *)

Section Decoding.
Variable alphabet : str.
Hypothesis alphabet_nodup : NoDup alphabet.

#[local] Abbreviation base := (len alphabet).
#[local] Abbreviation index := (make_index alphabet).

Lemma string_to_int_loop_app (m : gmap N Z) b s1 : ∀ s2 acc,
  string_to_int_loop b m (s1 ++ s2) acc =
    (string_to_int_loop b m s1 acc ≫= string_to_int_loop b m s2).
Proof.
  induction s1 as [|c s1 IH]; intros s2 acc; simpl; [done|].
  destruct (m !! c); [apply IH|done].
Qed.

Lemma string_to_int_loop_symbols raw ds :
  symbols alphabet raw ds → ∀ acc,
  string_to_int_loop base index raw acc =
    Ok (fold_left (λ acc d, acc * base + d) ds acc).
Proof using alphabet_nodup.
  induction 1 as [|c d raw ds [Hd Hc] _ IH]; intros acc; simpl; [done|].
  rewrite (make_index_lookup alphabet _ c alphabet_nodup Hc).
  rewrite Z2Nat.id by done. apply IH.
Qed.

Lemma string_to_int_loop_zeros a0 k :
  alphabet !! 0%nat = Some a0 →
  string_to_int_loop base index (replicate k a0) 0 = Ok 0.
Proof using alphabet_nodup.
  intros Ha0. induction k as [|k IH]; simpl; [done|].
  by rewrite (make_index_lookup alphabet _ a0 alphabet_nodup Ha0).
Qed.

(** Padded or not, the symbols of the digits of [n] decode to [n]. *)
Lemma string_to_int_padded a0 k raw n :
  2 ≤ base → 0 ≤ n →
  alphabet !! 0%nat = Some a0 →
  symbols alphabet raw (base_digits base n) →
  string_to_int (replicate k a0 ++ raw) alphabet (Some index) = Ok n.
Proof using alphabet_nodup.
  intros Hb Hn Ha0 Hraw. unfold string_to_int.
  rewrite string_to_int_loop_app, string_to_int_loop_zeros by done.
  cbn [mbind result_bind]. rewrite (string_to_int_loop_symbols _ _ Hraw).
  f_equal. by apply eval_base_digits.
Qed.
End Decoding.

(** ** Alphabet normalisation *)

Lemma filter_all (P : N → Prop) `{∀ x, Decision (P x)} (l : list N) :
  Forall P l → filter P l = l.
Proof.
  induction 1 as [|x l Hx _ IH]; [done|].
  by rewrite filter_cons_True, IH.
Qed.

Lemma first_occurrences_elem_of l x : x ∈ first_occurrences l ↔ x ∈ l.
Proof.
  induction l as [|y l IH]; simpl; [done|].
  rewrite !elem_of_cons, list_elem_of_filter, IH.
  destruct (decide (x = y)); tauto.
Qed.

Lemma first_occurrences_NoDup l : NoDup (first_occurrences l).
Proof.
  induction l as [|y l IH]; simpl; [constructor|].
  apply NoDup_cons. split; [|by apply NoDup_filter].
  rewrite list_elem_of_filter. tauto.
Qed.

(** A list without duplicates is its own list of first occurrences. *)
Lemma first_occurrences_id l : NoDup l → first_occurrences l = l.
Proof.
  induction 1 as [|x l Hx _ IH]; simpl; [done|].
  rewrite IH. f_equal. apply filter_all, Forall_forall.
  intros y Hy ->. done.
Qed.

Lemma first_occurrences_app l1 l2 :
  first_occurrences (l1 ++ l2) =
    first_occurrences l1 ++ filter (λ y, y ∉ l1) (first_occurrences l2).
Proof.
  induction l1 as [|x l1 IH]; simpl.
  - symmetry. apply filter_all, Forall_forall. intros y _. apply not_elem_of_nil.
  - rewrite IH, filter_app, list_filter_filter. do 2 f_equal.
    apply list_filter_iff. intros y. rewrite not_elem_of_cons. tauto.
Qed.

(** [fromkeys] lists the first occurrences. *)
Lemma fromkeys_from_spec l : ∀ keys,
  fromkeys_from keys l = keys ++ filter (λ y, y ∉ keys) (first_occurrences l).
Proof.
  induction l as [|c l IH]; intros keys; simpl; [by rewrite app_nil_r|].
  destruct (decide (c ∈ keys)) as [Hc|Hc]; rewrite IH.
  - rewrite filter_cons_False by tauto. rewrite list_filter_filter_l; [done|].
    intros y Hy ->. done.
  - rewrite filter_cons_True by done. rewrite <- app_assoc. simpl. do 2 f_equal.
    rewrite list_filter_filter. apply list_filter_iff. intros y.
    rewrite not_elem_of_app, list_elem_of_singleton. tauto.
Qed.

Lemma fromkeys_first_occurrences l : fromkeys l = first_occurrences l.
Proof.
  unfold fromkeys. rewrite fromkeys_from_spec. simpl.
  apply filter_all, Forall_forall. intros y _. apply not_elem_of_nil.
Qed.

Lemma sorted_set_elem_of l x : x ∈ sorted_set l ↔ x ∈ l.
Proof.
  unfold sorted_set. rewrite merge_sort_Permutation, elem_of_elements.
  apply elem_of_list_to_set.
Qed.

Lemma sorted_set_NoDup l : NoDup (sorted_set l).
Proof.
  unfold sorted_set. rewrite merge_sort_Permutation. apply NoDup_elements.
Qed.

Lemma sorted_set_le l : StronglySorted N.le (sorted_set l).
Proof. apply StronglySorted_merge_sort; apply _. Qed.

(** The result of [sorted(set(...))] is strictly increasing. *)
Lemma sorted_set_lt l : StronglySorted N.lt (sorted_set l).
Proof.
  pose proof (sorted_set_NoDup l) as Hnd. pose proof (sorted_set_le l) as Hle.
  induction Hle as [|x k _ IH Hx]; [constructor|].
  apply NoDup_cons in Hnd as [Hnotin Hnd]. constructor; [by apply IH|].
  rewrite Forall_forall in Hx |- *. intros y Hy.
  specialize (Hx y Hy). assert (x ≠ y) by (intros ->; done). lia.
Qed.

(** It depends on the set of the characters only. *)
Lemma sorted_set_ext l l' : (∀ x, x ∈ l ↔ x ∈ l') → sorted_set l = sorted_set l'.
Proof.
  intros Hext. unfold sorted_set. do 2 f_equal. apply set_eq. intros x.
  by rewrite !elem_of_list_to_set.
Qed.

(** A strictly increasing list is what [sorted(set(...))] makes of it. *)
Lemma sorted_set_id l : StronglySorted N.lt l → sorted_set l = l.
Proof.
  intros Hl. apply (StronglySorted_unique N.le).
  - apply sorted_set_le.
  - induction Hl as [|x k _ IH Hx]; constructor; [done|].
    eapply Forall_impl; [done|]. intros y. apply N.lt_le_incl.
  - apply NoDup_Permutation; [apply sorted_set_NoDup| |apply sorted_set_elem_of].
    induction Hl as [|x k _ IH Hx]; constructor; [|done].
    rewrite Forall_forall in Hx. intros Hin. specialize (Hx x Hin). lia.
Qed.

Lemma normalized_elem_of alphabet d x : x ∈ normalized alphabet d ↔ x ∈ alphabet.
Proof.
  destruct d; simpl; [|apply sorted_set_elem_of].
  rewrite fromkeys_first_occurrences. apply first_occurrences_elem_of.
Qed.

Lemma normalized_NoDup alphabet d : NoDup (normalized alphabet d).
Proof.
  destruct d; simpl; [|apply sorted_set_NoDup].
  rewrite fromkeys_first_occurrences. apply first_occurrences_NoDup.
Qed.

(** Normalising a normalised alphabet changes nothing. *)
Lemma normalized_idemp alphabet d :
  normalized (normalized alphabet d) d = normalized alphabet d.
Proof.
  destruct d; simpl.
  - rewrite !fromkeys_first_occurrences.
    apply first_occurrences_id, first_occurrences_NoDup.
  - apply sorted_set_id, sorted_set_lt.
Qed.

(** The length of the normalised alphabet is the number of distinct
    characters, in either mode. *)
Lemma normalized_length alphabet d :
  length (normalized alphabet d) = size (list_to_set alphabet : gset N).
Proof.
  unfold size, set_size. simpl. apply Permutation_length.
  apply NoDup_Permutation; [apply normalized_NoDup|apply NoDup_elements|].
  intros x. by rewrite normalized_elem_of, elem_of_elements, elem_of_list_to_set.
Qed.

(** ** The ceiling of the logarithm *)

Lemma ceil_log_from_spec base x : 2 ≤ base → ∀ (fuel : nat) power n,
  0 < power → x ≤ power * 2 ^ Z.of_nat fuel →
  ∃ k, 0 ≤ k ∧ ceil_log_from fuel base x power n = n + k ∧
    x ≤ power * base ^ k ∧ ∀ j, 0 ≤ j < k → power * base ^ j < x.
Proof.
  intros Hb. induction fuel as [|fuel IH]; intros power n Hp Hx.
  - exists 0. rewrite Z.pow_0_r in *. simpl. repeat split; lia.
  - simpl. destruct (Z.leb_spec x power) as [Hle|Hgt].
    + exists 0. rewrite Z.pow_0_r. repeat split; lia.
    + destruct (IH (power * base) (n + 1)) as (k & Hk & -> & Hup & Hlow); [nia|..].
      { rewrite Nat2Z.inj_succ, Z.pow_succ_r in Hx by lia.
        assert (0 < 2 ^ Z.of_nat fuel) by (apply Z.pow_pos_nonneg; lia). nia. }
      exists (k + 1). split; [lia|]. split; [lia|].
      rewrite Z.pow_add_r, Z.pow_1_r by lia. split; [lia|].
      intros j Hj. destruct (Z.eq_dec j 0) as [->|Hj0]; [rewrite Z.pow_0_r; lia|].
      specialize (Hlow (j - 1) ltac:(lia)).
      replace j with (Z.succ (j - 1)) by lia. rewrite Z.pow_succ_r by lia. lia.
Qed.

(** [ceil_log base x] is the least exponent [n] with [x <= base ^ n]. *)
Lemma ceil_log_spec base x : 2 ≤ base → 1 ≤ x →
  0 ≤ ceil_log base x ∧ x ≤ base ^ ceil_log base x ∧
  ∀ j, 0 ≤ j < ceil_log base x → base ^ j < x.
Proof.
  intros Hb Hx. unfold ceil_log.
  destruct (ceil_log_from_spec base x Hb (Z.to_nat (Z.log2_up x)) 1 0)
    as (k & Hk & -> & Hup & Hlow); [lia| |].
  - rewrite Z2Nat.id by apply Z.log2_up_nonneg.
    pose proof (Z.log2_log2_up_spec x). lia.
  - rewrite Z.add_0_l. split; [lia|]. split; [lia|].
    intros j Hj. specialize (Hlow j). lia.
Qed.

Lemma ceil_log_unique base x n : 2 ≤ base → 1 ≤ x → 0 ≤ n →
  x ≤ base ^ n → (∀ j, 0 ≤ j < n → base ^ j < x) → ceil_log base x = n.
Proof.
  intros Hb Hx Hn Hup Hlow.
  destruct (ceil_log_spec base x Hb Hx) as (Hc & Hcup & Hclow).
  destruct (Z.lt_trichotomy (ceil_log base x) n) as [Hlt|[Heq|Hgt]]; [|done|].
  - specialize (Hlow _ (conj Hc Hlt)). lia.
  - specialize (Hclow _ (conj Hn Hgt)). lia.
Qed.

(** [ceil_log] is the ceiling of the quotient of the real logarithms,
    which is what [math.ceil(math.log(x, base))] denotes. *)
Lemma Rdiv_bounds (a X L : R) :
  (0 < L → (a - 1) * L < X <= a * L → a - 1 < X / L <= a)%R.
Proof.
  intros HL [Hlo Hhi]. split.
  - apply (Rmult_lt_reg_r L); [done|]. unfold Rdiv.
    rewrite Rmult_assoc, Rinv_l by lra. lra.
  - apply (Rmult_le_reg_r L); [done|]. unfold Rdiv.
    rewrite Rmult_assoc, Rinv_l by lra. lra.
Qed.

Lemma ln_IZR_pow base n :
  2 ≤ base → 0 ≤ n → ln (IZR (base ^ n)) = (IZR n * ln (IZR base))%R.
Proof.
  intros Hb Hn. rewrite <- (Z2Nat.id n) at 1 by done.
  rewrite <- pow_IZR, ln_pow by (apply IZR_lt; lia).
  by rewrite INR_IZR_INZ, Z2Nat.id.
Qed.

Lemma ceil_log_real base x : 2 ≤ base → 1 ≤ x →
  (IZR (ceil_log base x) - 1 < ln (IZR x) / ln (IZR base) <= IZR (ceil_log base x))%R.
Proof.
  intros Hb Hx. destruct (ceil_log_spec base x Hb Hx) as (Hnn & Hup & Hlow).
  assert (0 < ln (IZR base))%R as Hln.
  { rewrite <- ln_1. apply ln_increasing; [lra|]. apply IZR_lt. lia. }
  apply Rdiv_bounds; [done|]. split.
  - destruct (Z.eq_dec (ceil_log base x) 0) as [H0|Hne].
    + rewrite H0 in *. rewrite Z.pow_0_r in Hup. assert (x = 1) as -> by lia.
      rewrite ln_1. lra.
    + specialize (Hlow (ceil_log base x - 1) ltac:(lia)).
      rewrite <- minus_IZR, <- ln_IZR_pow by lia.
      apply ln_increasing; [|by apply IZR_lt].
      apply IZR_lt, Z.pow_pos_nonneg; lia.
  - rewrite <- ln_IZR_pow by lia.
    destruct (Z.eq_dec x (base ^ ceil_log base x)) as [<-|Hne]; [lra|].
    apply Rlt_le, ln_increasing; apply IZR_lt; lia.
Qed.

Lemma floor_log_spec base x : 2 ≤ base → 1 ≤ x →
  0 ≤ floor_log base x ∧ base ^ floor_log base x ≤ x < base ^ (floor_log base x + 1).
Proof.
  intros Hb Hx. destruct (ceil_log_spec base x Hb Hx) as (Hnn & Hup & Hlow).
  unfold floor_log. destruct (Z.eqb_spec (base ^ ceil_log base x) x) as [Heq|Hne].
  - split; [done|]. rewrite Z.pow_add_r, Z.pow_1_r by lia. nia.
  - destruct (Z.eq_dec (ceil_log base x) 0) as [H0|Hpos].
    + rewrite H0, Z.pow_0_r in *. lia.
    + specialize (Hlow (ceil_log base x - 1) ltac:(lia)).
      replace (ceil_log base x - 1 + 1) with (ceil_log base x) by lia. lia.
Qed.

Lemma floor_log_real base x : 2 ≤ base → 1 ≤ x →
  (IZR (floor_log base x) <= ln (IZR x) / ln (IZR base) < IZR (floor_log base x) + 1)%R.
Proof.
  intros Hb Hx. destruct (floor_log_spec base x Hb Hx) as (Hnn & Hlo & Hhi).
  assert (0 < ln (IZR base))%R as Hln.
  { rewrite <- ln_1. apply ln_increasing; [lra|]. apply IZR_lt. lia. }
  assert (0 < IZR (base ^ floor_log base x))%R as Hpow
    by (apply IZR_lt, Z.pow_pos_nonneg; lia).
  split.
  - apply (Rmult_le_reg_r (ln (IZR base))); [done|]. unfold Rdiv.
    rewrite Rmult_assoc, Rinv_l, Rmult_1_r, <- ln_IZR_pow by lra || lia.
    destruct (Z.eq_dec (base ^ floor_log base x) x) as [->|Hne]; [lra|].
    apply Rlt_le, ln_increasing; [done|]. apply IZR_lt. lia.
  - apply (Rmult_lt_reg_r (ln (IZR base))); [done|]. unfold Rdiv.
    rewrite Rmult_assoc, Rinv_l, Rmult_1_r, <- plus_IZR, <- ln_IZR_pow by lra || lia.
    apply ln_increasing; [|by apply IZR_lt]. apply IZR_lt. lia.
Qed.

(** [encoded_length] is the ceiling of [log(256) / log(alpha_len) *
    num_bytes], taken over the reals. *)
Lemma encoded_length_real self num_bytes :
  2 ≤ _alpha_len self →
  (IZR (encoded_length self num_bytes) - 1
     < ln 256 / ln (IZR (_alpha_len self)) * IZR num_bytes
     <= IZR (encoded_length self num_bytes))%R.
Proof.
  intros Hb. unfold encoded_length.
  assert (∀ k, 0 ≤ k →
    (ln 256 / ln (IZR (_alpha_len self)) * IZR k
       = ln (IZR (256 ^ k)) / ln (IZR (_alpha_len self)))%R) as Hlog.
  { intros k Hk. rewrite ln_IZR_pow by lia. unfold Rdiv. lra. }
  destruct (Z.ltb_spec num_bytes 0) as [Hneg|Hnn].
  - pose proof (floor_log_real (_alpha_len self) (256 ^ (- num_bytes)) Hb
                  ltac:(pose proof (Z.pow_pos_nonneg 256 (- num_bytes)); lia)) as Hfl.
    rewrite <- Hlog in Hfl by lia. rewrite opp_IZR in *.
    set (f := (ln 256 / ln (IZR (_alpha_len self)))%R) in *. lra.
  - rewrite Hlog by done. apply ceil_log_real; [done|].
    pose proof (Z.pow_pos_nonneg 256 num_bytes). lia.
Qed.

(** ** Configured instances *)

Lemma join_chars (parts : list N) : join parts = parts.
Proof. unfold join. induction parts as [|c parts IH]; simpl; [done|]. by rewrite IH. Qed.

Lemma set_alphabet_cases self alphabet d :
  (len (normalized alphabet d) ≤ 1 ∧
     set_alphabet self alphabet d = (Raise (InvalidAlphabetError more_than_one), self)) ∨
  (2 ≤ len (normalized alphabet d) ∧
     set_alphabet self alphabet d = (Ok (), configured_with (normalized alphabet d))).
Proof.
  unfold set_alphabet. fold (normalized alphabet d).
  destruct (Z.leb_spec (len (normalized alphabet d)) 1) as [Hle|Hgt]; [by left|].
  right. split; [lia|]. unfold configured_with. simpl. by rewrite join_chars.
Qed.

Lemma configured_with_ok alphabet d :
  2 ≤ len (normalized alphabet d) → configured (configured_with (normalized alphabet d)).
Proof. intros Hsize. split; simpl; auto using normalized_NoDup. Qed.

Lemma init_cases alphabet d :
  let a := default DEFAULT_ALPHABET alphabet in
  (len (normalized a d) ≤ 1 ∧
     init alphabet d = Raise (InvalidAlphabetError more_than_one)) ∨
  (2 ≤ len (normalized a d) ∧ init alphabet d = Ok (configured_with (normalized a d))).
Proof.
  intros a. unfold init.
  replace (match alphabet with Some a0 => a0 | None => DEFAULT_ALPHABET end) with a
    by by destruct alphabet.
  destruct (set_alphabet_cases blank a d) as [[H ->]|[H ->]]; [by left|by right].
Qed.

Lemma reachable_configured self : reachable self → configured self.
Proof.
  induction 1 as [alphabet d self Hinit|self alphabet d r self' _ IH Hset].
  - destruct (init_cases alphabet d) as [[_ H]|[Hsize H]];
      rewrite H in Hinit; [done|]. injection Hinit as <-.
    by apply configured_with_ok.
  - destruct (set_alphabet_cases self alphabet d) as [[_ H]|[Hsize H]];
      rewrite H in Hset; injection Hset as <- <-; [done|].
    by apply configured_with_ok.
Qed.

Lemma default_instance_reachable : reachable default_instance.
Proof. by apply (reachable_init None false). Qed.

(** ** [encode] and [decode] *)

(** More loop tests than the loop needs do not change its result. *)
Lemma int_to_string_loop_mono (alphabet : str) alpha_len fuel : ∀ number output r fuel',
  int_to_string_loop fuel alphabet alpha_len number output = Some r →
  (fuel ≤ fuel')%nat →
  int_to_string_loop fuel' alphabet alpha_len number output = Some r.
Proof.
  induction fuel as [|fuel IH]; intros number output r fuel' Hrun Hle; [done|].
  destruct fuel' as [|fuel']; [lia|]. rewrite int_to_string_loop_S in *.
  destruct (number =? 0); [done|]. destruct (divmod number alpha_len) as [[q digit]|]; [|done].
  destruct (getitem alphabet digit); [|done]. apply IH; [done|lia].
Qed.

Lemma encode_mono self u pad fuel fuel' r :
  encode fuel self u pad = Some r → (fuel ≤ fuel')%nat →
  encode fuel' self u pad = Some r.
Proof.
  unfold encode, int_to_string. intros Hrun Hle.
  destruct (int_to_string_loop fuel _ _ _ _) as [r0|] eqn:Hloop; [|done].
  by rewrite (int_to_string_loop_mono _ _ _ _ _ _ _ Hloop Hle).
Qed.

Lemma uuid_fuel u fuel :
  valid_uuid u → (129 ≤ fuel)%nat → (Z.to_nat (Z.log2 (int u)) + 2 ≤ fuel)%nat.
Proof.
  intros [Hlo Hhi] Hfuel. destruct (Z.eq_dec (int u) 0) as [->|Hne]; [simpl; lia|].
  assert (Z.log2 (int u) < 128) by (apply Z.log2_lt_pow2; lia).
  pose proof (Z.log2_nonneg (int u)). lia.
Qed.

(** What [encode] returns for a UUID: the digits of its integer, padded
    on the left with the first symbol of the alphabet. *)
Lemma encode_spec self u pad fuel :
  configured self → valid_uuid u → (129 ≤ fuel)%nat →
  ∃ raw a0,
    symbols (_alphabet self) raw (base_digits (len (_alphabet self)) (int u)) ∧
    _alphabet self !! 0%nat = Some a0 ∧
    encode fuel self u pad =
      Some (Ok (replicate (Z.to_nat (default (_length self) pad - len raw)) a0 ++ raw)).
Proof.
  intros Hcfg Hu Hfuel. pose proof (cfg_size _ Hcfg) as Hsize.
  destruct (int_to_string_digits (_alphabet self) Hsize fuel (int u)
              (Some (default (_length self) pad)) (proj1 Hu) (uuid_fuel u fuel Hu Hfuel))
    as (raw & Hraw & Hrun).
  destruct (getitem_first (_alphabet self) Hsize) as (a0 & _ & Ha0).
  exists raw, a0. split; [done|]. split; [done|].
  rewrite (pad_and_reverse_Some _ _ _ a0 Ha0), rev_involutive in Hrun.
  replace (len (rev raw)) with (len raw) in Hrun by (unfold len; by rewrite length_rev).
  unfold encode. by destruct pad.
Qed.

Lemma UUID_of_int_valid u : valid_uuid u → UUID_of_int (int u) = Ok u.
Proof.
  intros [Hlo Hhi]. unfold UUID_of_int.
  destruct (Z.leb_spec 0 (int u)); [|lia]. destruct (Z.ltb_spec (int u) (2 ^ 128)); [|lia].
  by destruct u.
Qed.

Lemma decode_encoded self u k raw a0 :
  configured self → valid_uuid u →
  symbols (_alphabet self) raw (base_digits (len (_alphabet self)) (int u)) →
  _alphabet self !! 0%nat = Some a0 →
  decode self (replicate k a0 ++ raw) false = Ok u.
Proof.
  intros Hcfg Hu Hraw Ha0. unfold decode. rewrite (cfg_index _ Hcfg).
  rewrite (string_to_int_padded _ (cfg_nodup _ Hcfg) a0 k raw (int u)
             (cfg_size _ Hcfg) (proj1 Hu) Ha0 Hraw).
  cbn [mbind result_bind]. by apply UUID_of_int_valid.
Qed.

(** C1: for every UUID [u] and every configured instance (the alphabet
    normalises to at least two symbols, sorted or in the given order),
    [encode] with no [pad_length] returns a string that [decode] with
    [legacy=False] turns back into [u]. *)
Theorem decode_encode_roundtrip (self : ShortUUID) (u : UUID) (fuel : nat) :
  reachable self → valid_uuid u → (129 ≤ fuel)%nat →
  ∃ s, encode fuel self u None = Some (Ok s) ∧ decode self s false = Ok u.
Proof.
  intros Hself Hu Hfuel. apply reachable_configured in Hself as Hcfg.
  destruct (encode_spec self u None fuel Hcfg Hu Hfuel) as (raw & a0 & Hraw & Ha0 & ->).
  eexists. split; [done|]. by apply decode_encoded.
Qed.

Lemma decode_encode_roundtrip_witness :
  ∃ s, encode 129 default_instance example_uuid None = Some (Ok s) ∧
       decode default_instance s false = Ok example_uuid.
Proof.
  apply (decode_encode_roundtrip default_instance example_uuid 129).
  - apply default_instance_reachable.
  - unfold valid_uuid. simpl. lia.
  - lia.
Defined.

(** C5: a string that [encode] returned for a UUID with the default pad
    length decodes to a UUID that [encode] maps to the same string. *)
Theorem encode_decode_roundtrip (self : ShortUUID) (u : UUID) (fuel : nat) (s : str) :
  reachable self → valid_uuid u → (129 ≤ fuel)%nat →
  encode fuel self u None = Some (Ok s) →
  ∃ u', decode self s false = Ok u' ∧ encode fuel self u' None = Some (Ok s).
Proof.
  intros Hself Hu Hfuel Hs. apply reachable_configured in Hself as Hcfg.
  destruct (encode_spec self u None fuel Hcfg Hu Hfuel) as (raw & a0 & Hraw & Ha0 & Henc).
  exists u. split; [|done]. rewrite Henc in Hs. injection Hs as <-.
  by apply decode_encoded.
Qed.

Lemma encode_decode_roundtrip_witness :
  ∃ u', decode default_instance (lit "CXc85b4rqinB7s5J52TRYb") false = Ok u' ∧
        encode 129 default_instance u' None = Some (Ok (lit "CXc85b4rqinB7s5J52TRYb")).
Proof.
  apply (encode_decode_roundtrip default_instance example_uuid 129).
  - apply default_instance_reachable.
  - unfold valid_uuid. simpl. lia.
  - lia.
  - vm_compute. reflexivity.
Defined.

(** ** Fixed width *)

Lemma pow_256_16 : 256 ^ 16 = 2 ^ 128.
Proof. reflexivity. Qed.

Lemma encoded_length_16 self :
  configured self → encoded_length self 16 = _length self.
Proof.
  intros Hcfg. unfold encoded_length. simpl (16 <? 0).
  by rewrite (cfg_alpha_len _ Hcfg), (cfg_length _ Hcfg), pow_256_16.
Qed.

(** The default pad length holds every 128-bit number. *)
Lemma default_length_spec self :
  configured self →
  1 ≤ _length self ∧ 2 ^ 128 ≤ len (_alphabet self) ^ _length self.
Proof.
  intros Hcfg. rewrite (cfg_length _ Hcfg).
  destruct (ceil_log_spec (len (_alphabet self)) (2 ^ 128) (cfg_size _ Hcfg))
    as (Hnn & Hup & Hlow); [done|]. split; [|done].
  destruct (Z.eq_dec (ceil_log (len (_alphabet self)) (2 ^ 128)) 0) as [H0|Hne]; [|lia].
  rewrite H0, Z.pow_0_r in Hup. done.
Qed.

(** C2: with no [pad_length] argument, the string that [encode] returns
    for a UUID has [encoded_length()] symbols whatever the UUID is (the
    default [num_bytes] is 16); for the default alphabet of 57 symbols
    that length is 22. *)
Theorem encode_fixed_width (self : ShortUUID) (u : UUID) (fuel : nat) :
  reachable self → valid_uuid u → (129 ≤ fuel)%nat →
  (∃ s, encode fuel self u None = Some (Ok s) ∧ len s = encoded_length self 16) ∧
  len (_alphabet default_instance) = 57 ∧
  encoded_length default_instance 16 = 22.
Proof.
  intros Hself Hu Hfuel. split; [|by vm_compute].
  apply reachable_configured in Hself as Hcfg.
  destruct (encode_spec self u None fuel Hcfg Hu Hfuel) as (raw & a0 & Hraw & Ha0 & ->).
  eexists. split; [done|]. rewrite (encoded_length_16 _ Hcfg). simpl default.
  destruct (default_length_spec self Hcfg) as [Hpos Hcap].
  assert (len raw ≤ _length self) as Hraw_len.
  { unfold len at 1. rewrite (symbols_length _ _ _ Hraw).
    apply (base_digits_length _ (cfg_size _ Hcfg)); [apply Hu|lia|].
    destruct Hu. lia. }
  unfold len in *. rewrite length_app, length_replicate. lia.
Qed.

Lemma encode_fixed_width_witness :
  (∃ s, encode 129 default_instance example_uuid None = Some (Ok s) ∧
        len s = encoded_length default_instance 16) ∧
  len (_alphabet default_instance) = 57 ∧
  encoded_length default_instance 16 = 22.
Proof.
  apply (encode_fixed_width default_instance example_uuid 129).
  - apply default_instance_reachable.
  - unfold valid_uuid. simpl. lia.
  - lia.
Defined.

(** ** The example of the test suite *)

(** C6: with the default alphabet, [encode] maps the UUID
    3b1f8b40-222c-4a6e-b77e-779d5a94e21c to ["CXc85b4rqinB7s5J52TRYb"]
    and [decode] maps that string back to the UUID. *)
Theorem default_alphabet_example (fuel : nat) :
  (23 ≤ fuel)%nat →
  int example_uuid = 0x3b1f8b40222c4a6eb77e779d5a94e21c ∧
  encode fuel default_instance example_uuid None =
    Some (Ok (lit "CXc85b4rqinB7s5J52TRYb")) ∧
  decode default_instance (lit "CXc85b4rqinB7s5J52TRYb") false = Ok example_uuid.
Proof.
  intros Hfuel. split; [done|]. split; [|by vm_compute].
  apply (encode_mono _ _ _ 23); [by vm_compute|done].
Qed.

Lemma default_alphabet_example_witness :
  int example_uuid = 0x3b1f8b40222c4a6eb77e779d5a94e21c ∧
  encode 23 default_instance example_uuid None =
    Some (Ok (lit "CXc85b4rqinB7s5J52TRYb")) ∧
  decode default_instance (lit "CXc85b4rqinB7s5J52TRYb") false = Ok example_uuid.
Proof. apply (default_alphabet_example 23). lia. Defined.

(** ** Characters outside the alphabet *)

Lemma elem_of_rev (s : str) c : c ∈ rev s ↔ c ∈ s.
Proof. rewrite rev_alt. apply elem_of_reverse. Qed.

(** The loop of [string_to_int] stops at the first character that has no
    index. *)
Lemma string_to_int_loop_invalid b (m : gmap N Z) s : ∀ acc,
  (∃ c, c ∈ s ∧ m !! c = None) →
  ∃ pre c post, s = pre ++ c :: post ∧
    Forall (λ x, is_Some (m !! x)) pre ∧ m !! c = None ∧
    string_to_int_loop b m s acc = Raise (ValueError (not_in_alphabet c)).
Proof.
  induction s as [|c s IH]; intros acc (c' & Hin & Hnone).
  - by apply elem_of_nil in Hin.
  - simpl. destruct (m !! c) as [i|] eqn:Hc.
    + destruct (IH (acc * b + i)) as (pre & c0 & post & -> & Hpre & Hnone0 & ->).
      { exists c'. split; [|done]. apply elem_of_cons in Hin as [->|]; [congruence|done]. }
      exists (c :: pre), c0, post. split; [done|]. split; [|done].
      constructor; [by eexists|done].
    + by exists [], c, s.
Qed.

(** C3: when the string has a symbol that the symbol-to-index map of
    the instance lacks, [decode] raises the [ValueError] of
    [string_to_int], whose message quotes the first such symbol that the
    loop meets (the string is read backwards with [legacy=True]); it
    returns no UUID. *)
Theorem decode_invalid_character (self : ShortUUID) (s : str) (legacy : bool) :
  (∃ c, c ∈ s ∧ _alphabet_index self !! c = None) →
  (∃ pre c post,
     (if legacy then rev s else s) = pre ++ c :: post ∧
     Forall (λ x, is_Some (_alphabet_index self !! x)) pre ∧
     c ∈ s ∧ _alphabet_index self !! c = None ∧
     decode self s legacy =
       Raise (ValueError (lit "'" ++ [c] ++ lit "' is not in alphabet"))) ∧
  ∀ u, decode self s legacy ≠ Ok u.
Proof.
  intros Hbad.
  destruct (string_to_int_loop_invalid (len (_alphabet self)) (_alphabet_index self)
              (if legacy then rev s else s) 0) as (pre & c & post & Hs & Hpre & Hnone & Hrun).
  { destruct Hbad as (c & Hin & Hnone). exists c. split; [|done].
    destruct legacy; [|done]. by apply elem_of_rev. }
  assert (decode self s legacy = Raise (ValueError (not_in_alphabet c))) as Hdec.
  { unfold decode, string_to_int. by rewrite Hrun. }
  split; [|intros u; by rewrite Hdec].
  exists pre, c, post. split; [done|]. split; [done|]. split; [|done].
  assert (c ∈ (if legacy then rev s else s)) as Hin.
  { rewrite Hs. apply elem_of_app. right. apply elem_of_cons. by left. }
  destruct legacy; [by apply elem_of_rev|done].
Qed.

Lemma decode_invalid_character_witness :
  (∃ pre c post,
     lit "2l" = pre ++ c :: post ∧
     Forall (λ x, is_Some (_alphabet_index default_instance !! x)) pre ∧
     c ∈ lit "2l" ∧ _alphabet_index default_instance !! c = None ∧
     decode default_instance (lit "2l") false =
       Raise (ValueError (lit "'" ++ [c] ++ lit "' is not in alphabet"))) ∧
  ∀ u, decode default_instance (lit "2l") false ≠ Ok u.
Proof.
  apply (decode_invalid_character default_instance (lit "2l") false).
  exists 108%N. split; [|by vm_compute].
  apply list_elem_of_In. vm_compute. tauto.
Defined.

Example test_decode_invalid_characters :
  init (Some (lit "abc")) false ≫= (λ su, decode su (lit "xyz") false) =
    Raise (ValueError (lit "'x' is not in alphabet")).
Proof. vm_compute. reflexivity. Qed.

(** ** Rejected alphabets *)

Lemma NoDup_all_eq (l : list N) c :
  NoDup l → (∀ x, x ∈ l → x = c) → (length l ≤ 1)%nat.
Proof.
  intros Hnd Hall. destruct l as [|x [|y l]]; simpl; [lia..|].
  exfalso. apply NoDup_cons in Hnd as [Hx _]. apply Hx.
  rewrite (Hall x), (Hall y); [apply elem_of_cons; by left|..];
    repeat (apply elem_of_cons; (by left) || right); apply elem_of_cons; by left.
Qed.

Lemma all_eq_replicate (l : list N) c : (∀ x, x ∈ l → x = c) → l = replicate (length l) c.
Proof.
  induction l as [|x l IH]; intros Hall; simpl; [done|].
  rewrite (Hall x) by (apply elem_of_cons; by left). f_equal.
  apply IH. intros y Hy. apply Hall. apply elem_of_cons. by right.
Qed.

(** An alphabet normalises to at most one symbol exactly when it is
    empty or repeats one symbol. *)
Lemma normalized_le_1 alphabet d :
  len (normalized alphabet d) ≤ 1 ↔ ∃ c k, alphabet = replicate k c.
Proof.
  split.
  - intros Hlen. destruct (normalized alphabet d) as [|c [|c' rest]] eqn:Hnorm;
      [| |unfold len in Hlen; simpl in Hlen; lia].
    + exists 0%N, 0%nat. destruct alphabet as [|x l]; [done|].
      assert (x ∈ normalized (x :: l) d) as Hx
        by (apply normalized_elem_of, elem_of_cons; by left).
      rewrite Hnorm in Hx. by apply elem_of_nil in Hx.
    + exists c, (length alphabet). apply all_eq_replicate. intros x Hx.
      apply (normalized_elem_of alphabet d) in Hx. rewrite Hnorm in Hx.
      by apply list_elem_of_singleton in Hx.
  - intros (c & k & ->). unfold len.
    enough (length (normalized (replicate k c) d) ≤ 1)%nat by lia.
    apply (NoDup_all_eq _ c); [apply normalized_NoDup|].
    intros x Hx. apply normalized_elem_of in Hx. by apply elem_of_replicate in Hx as [-> _].
Qed.

Lemma getitem_raises {A} (l : list A) i e : getitem l i = Raise e → e = IndexError.
Proof.
  unfold getitem. destruct (_ <? 0); [congruence|].
  destruct (l !! _); congruence.
Qed.

Lemma int_to_string_loop_raises (alphabet : str) alpha_len fuel : ∀ number output e,
  int_to_string_loop fuel alphabet alpha_len number output = Some (Raise e) →
  e = ZeroDivisionError ∨ e = IndexError.
Proof.
  induction fuel as [|fuel IH]; intros number output e; [done|].
  rewrite int_to_string_loop_S. destruct (number =? 0); [done|].
  unfold divmod. destruct (alpha_len =? 0); [intros [= <-]; by left|].
  destruct (getitem alphabet _) eqn:Hget; [apply IH|].
  intros [= <-]. right. by eapply getitem_raises.
Qed.

Lemma encode_raises fuel self u pad e :
  encode fuel self u pad = Some (Raise e) → e = ZeroDivisionError ∨ e = IndexError.
Proof.
  unfold encode, int_to_string.
  destruct (int_to_string_loop _ _ _ _ _) as [[output|e']|] eqn:Hloop; [| |done].
  - unfold pad_and_reverse. destruct (truthy _); [|done].
    destruct (getitem (_alphabet self) 0) eqn:Hget; [done|].
    intros [= <-]. right. by eapply getitem_raises.
  - intros [= <-]. by eapply int_to_string_loop_raises.
Qed.

(** C7: an alphabet that normalises to no or one symbol (the empty
    string, or repetitions of one symbol) makes [set_alphabet] and the
    constructor raise [InvalidAlphabetError]; no call of [encode] raises
    that exception. *)
Theorem invalid_alphabet_rejected (alphabet : str) (dont_sort_alphabet : bool) :
  len (normalized alphabet dont_sort_alphabet) ≤ 1 →
  (∃ c k, alphabet = replicate k c) ∧
  (∀ self, set_alphabet self alphabet dont_sort_alphabet =
             (Raise (InvalidAlphabetError more_than_one), self)) ∧
  init (Some alphabet) dont_sort_alphabet = Raise (InvalidAlphabetError more_than_one) ∧
  (∀ fuel self u pad_length msg,
     encode fuel self u pad_length ≠ Some (Raise (InvalidAlphabetError msg))).
Proof.
  intros Hlen. split; [by apply (normalized_le_1 alphabet dont_sort_alphabet)|].
  split; [|split].
  - intros self.
    destruct (set_alphabet_cases self alphabet dont_sort_alphabet) as [[_ H]|[H _]]; [done|lia].
  - destruct (init_cases (Some alphabet) dont_sort_alphabet) as [[_ H]|[H _]];
      [done|simpl in H; lia].
  - intros fuel self u pad msg Henc. by destruct (encode_raises _ _ _ _ _ Henc).
Qed.

Lemma invalid_alphabet_rejected_witness :
  (∃ c k, lit "1111111" = replicate k c) ∧
  (∀ self, set_alphabet self (lit "1111111") false =
             (Raise (InvalidAlphabetError more_than_one), self)) ∧
  init (Some (lit "1111111")) false = Raise (InvalidAlphabetError more_than_one) ∧
  (∀ fuel self u pad_length msg,
     encode fuel self u pad_length ≠ Some (Raise (InvalidAlphabetError msg))).
Proof.
  apply (invalid_alphabet_rejected (lit "1111111") false).
  vm_compute. discriminate.
Defined.

Example test_invalid_alphabets :
  init (Some (lit "0")) false = Raise (InvalidAlphabetError more_than_one) ∧
  init (Some (lit "")) true = Raise (InvalidAlphabetError more_than_one) ∧
  fst (set_alphabet default_instance (lit "1") true) =
    Raise (InvalidAlphabetError more_than_one).
Proof. vm_compute. auto. Qed.

(** ** Normalisation is canonical *)

Lemma normalized_size alphabet d :
  (2 ≤ size (list_to_set alphabet : gset N))%nat ↔ 2 ≤ len (normalized alphabet d).
Proof. unfold len. rewrite normalized_length. lia. Qed.

Lemma get_alphabet_configured_with new_alphabet :
  get_alphabet (configured_with new_alphabet) = new_alphabet.
Proof. reflexivity. Qed.

(** Adding a character that the alphabet already has keeps the set of
    its characters. *)
Lemma duplicate_elem_of (l1 l2 : list N) c x :
  c ∈ l1 ++ l2 → x ∈ l1 ++ c :: l2 ↔ x ∈ l1 ++ l2.
Proof.
  intros Hc. rewrite !elem_of_app, elem_of_cons. rewrite elem_of_app in Hc.
  split; [intros [?|[->|?]]; tauto|tauto].
Qed.

Lemma first_occurrences_duplicate l1 l2 c :
  c ∈ l1 → first_occurrences (l1 ++ c :: l2) = first_occurrences (l1 ++ l2).
Proof.
  intros Hc. rewrite !first_occurrences_app. f_equal. simpl.
  rewrite filter_cons_False by tauto. apply list_filter_filter_l.
  intros y Hy ->. done.
Qed.

(** C8, amended: for an input [A] with at least two distinct symbols,
    [set_alphabet(A)] succeeds, and a second call with [A] leaves the
    object as the first call left it.  In the default mode the alphabet
    is the set of the symbols of [A] in increasing order, and a duplicate
    symbol inserted anywhere into [A] changes nothing.  With
    [dont_sort_alphabet=True] the alphabet lists the distinct symbols of
    [A] in the order of their first occurrence; a duplicate inserted after
    an occurrence of the same symbol changes nothing, and a duplicate
    inserted anywhere leaves the length of the alphabet as it was. *)
Theorem set_alphabet_normalization (self : ShortUUID) (A : str) (dont_sort_alphabet : bool) :
  (2 ≤ size (list_to_set A : gset N))%nat →
  ∃ self1,
    set_alphabet self A dont_sort_alphabet = (Ok (), self1) ∧
    set_alphabet self1 A dont_sort_alphabet = (Ok (), self1) ∧
    (dont_sort_alphabet = false →
       StronglySorted N.lt (get_alphabet self1) ∧
       ∀ x, x ∈ get_alphabet self1 ↔ x ∈ A) ∧
    (dont_sort_alphabet = true → get_alphabet self1 = first_occurrences A) ∧
    ∀ l1 c l2, A = l1 ++ l2 → c ∈ A →
      ∃ self2,
        set_alphabet self (l1 ++ c :: l2) dont_sort_alphabet = (Ok (), self2) ∧
        len (get_alphabet self2) = len (get_alphabet self1) ∧
        (dont_sort_alphabet = false ∨ c ∈ l1 → get_alphabet self2 = get_alphabet self1).
Proof.
  intros Hsize. exists (configured_with (normalized A dont_sort_alphabet)).
  pose proof (proj1 (normalized_size A dont_sort_alphabet) Hsize) as Hlen.
  split; [|split; [|split; [|split]]].
  - destruct (set_alphabet_cases self A dont_sort_alphabet) as [[H _]|[_ H]]; [lia|done].
  - destruct (set_alphabet_cases (configured_with (normalized A dont_sort_alphabet))
                A dont_sort_alphabet) as [[H _]|[_ H]]; [lia|done].
  - intros ->. rewrite get_alphabet_configured_with. simpl.
    split; [apply sorted_set_lt|apply sorted_set_elem_of].
  - intros ->. rewrite get_alphabet_configured_with. simpl.
    apply fromkeys_first_occurrences.
  - intros l1 c l2 -> Hc.
    assert (∀ x, x ∈ l1 ++ c :: l2 ↔ x ∈ l1 ++ l2) as Hsame
      by (intros x; by apply duplicate_elem_of).
    assert (list_to_set (l1 ++ c :: l2) = (list_to_set (l1 ++ l2) : gset N)) as Hset.
    { apply set_eq. intros x. by rewrite !elem_of_list_to_set. }
    exists (configured_with (normalized (l1 ++ c :: l2) dont_sort_alphabet)).
    split; [|split].
    + destruct (set_alphabet_cases self (l1 ++ c :: l2) dont_sort_alphabet)
        as [[H _]|[_ H]]; [|done].
      apply (normalized_size _ dont_sort_alphabet) in Hsize.
      unfold len in *. rewrite normalized_length in *. rewrite Hset in H. lia.
    + rewrite !get_alphabet_configured_with. unfold len.
      by rewrite !normalized_length, Hset.
    + rewrite !get_alphabet_configured_with. intros [->|Hc1]; simpl.
      * by apply sorted_set_ext.
      * destruct dont_sort_alphabet; simpl; [|by apply sorted_set_ext].
        rewrite !fromkeys_first_occurrences. by apply first_occurrences_duplicate.
Qed.

Lemma set_alphabet_normalization_witness :
  ∃ self1,
    set_alphabet default_instance (lit "ab") true = (Ok (), self1) ∧
    set_alphabet self1 (lit "ab") true = (Ok (), self1) ∧
    (true = false →
       StronglySorted N.lt (get_alphabet self1) ∧
       ∀ x, x ∈ get_alphabet self1 ↔ x ∈ lit "ab") ∧
    (true = true → get_alphabet self1 = first_occurrences (lit "ab")) ∧
    ∀ l1 c l2, lit "ab" = l1 ++ l2 → c ∈ lit "ab" →
      ∃ self2,
        set_alphabet default_instance (l1 ++ c :: l2) true = (Ok (), self2) ∧
        len (get_alphabet self2) = len (get_alphabet self1) ∧
        (true = false ∨ c ∈ l1 → get_alphabet self2 = get_alphabet self1).
Proof.
  apply (set_alphabet_normalization default_instance (lit "ab") true).
  vm_compute. lia.
Defined.

(** C8 as stated fails with [dont_sort_alphabet=True]: ["bab"] is ["ab"]
    with a duplicate [b] inserted in front, and its alphabet is ["ba"],
    not ["ab"]. *)
Lemma duplicate_before_first_occurrence :
  ∃ self1 self2,
    98%N ∈ lit "ab" ∧
    set_alphabet default_instance (lit "ab") true = (Ok (), self1) ∧
    set_alphabet default_instance ([] ++ 98%N :: lit "ab") true = (Ok (), self2) ∧
    get_alphabet self1 = lit "ab" ∧
    get_alphabet self2 = lit "ba" ∧
    get_alphabet self2 ≠ get_alphabet self1.
Proof.
  eexists _, _. split; [apply list_elem_of_In; vm_compute; tauto|].
  split; [vm_compute; reflexivity|]. split; [vm_compute; reflexivity|].
  split; [vm_compute; reflexivity|]. split; [vm_compute; reflexivity|].
  vm_compute. discriminate.
Qed.

Example test_alphabet :
  (∀ self, fst (set_alphabet self (lit "01010101010101") false) = Ok ()) ∧
  get_alphabet (snd (set_alphabet default_instance (lit "01010101010101") false)) = lit "01" ∧
  get_alphabet (snd (set_alphabet default_instance
    (lit "123456789abcdefghijkmnopqrstuvwxyzABCDEFGHJKLMNPQRSTUVWXYZ123abc") true)) =
    lit "123456789abcdefghijkmnopqrstuvwxyzABCDEFGHJKLMNPQRSTUVWXYZ".
Proof. split; [intros self|]; vm_compute; auto. Qed.

(** ** The range check of [decode] *)

Lemma index_from_ge (alphabet : str) : ∀ idx m c i,
  index_from idx alphabet m !! c = Some i → m !! c = Some i ∨ idx ≤ i.
Proof.
  induction alphabet as [|a rest IH]; intros idx m c i Hi; simpl in Hi; [by left|].
  destruct (IH _ _ _ _ Hi) as [Hm|Hle]; [|right; lia].
  destruct (decide (a = c)) as [->|Hne].
  - rewrite lookup_insert_eq in Hm. injection Hm as <-. right. lia.
  - rewrite lookup_insert_ne in Hm by done. by left.
Qed.

Lemma make_index_nonneg (alphabet : str) c i : make_index alphabet !! c = Some i → 0 ≤ i.
Proof. intros Hi. by destruct (index_from_ge _ _ _ _ _ Hi) as [Hm|Hle]. Qed.

(** A string over the alphabet decodes to a non-negative integer. *)
Lemma string_to_int_loop_over (alphabet : str) s : ∀ acc,
  (∀ c, c ∈ s → c ∈ alphabet) → 0 ≤ acc →
  ∃ n, string_to_int_loop (len alphabet) (make_index alphabet) s acc = Ok n ∧ 0 ≤ n.
Proof.
  induction s as [|c s IH]; intros acc Hover Hacc; simpl; [by exists acc|].
  destruct (proj2 (make_index_is_Some alphabet c)) as [i Hi].
  { apply Hover, elem_of_cons. by left. }
  rewrite Hi. apply IH.
  - intros c' Hc'. apply Hover, elem_of_cons. by right.
  - pose proof (make_index_nonneg _ _ _ Hi). unfold len. nia.
Qed.

(** C9: a string over the alphabet of the instance decodes to an
    integer [n >= 0]; [decode] returns the UUID of [n] when [n < 2^128]
    and raises the [ValueError] of the range check of [UUID(int=n)]
    otherwise, so it returns a UUID exactly when [n < 2^128]. *)
Theorem decode_range_check (self : ShortUUID) (s : str) (legacy : bool) :
  reachable self → (∀ c, c ∈ s → c ∈ _alphabet self) →
  ∃ n,
    string_to_int (if legacy then rev s else s) (_alphabet self)
      (Some (_alphabet_index self)) = Ok n ∧
    0 ≤ n ∧
    (n < 2 ^ 128 → decode self s legacy = Ok {| int := n |}) ∧
    (2 ^ 128 ≤ n →
       decode self s legacy =
         Raise (ValueError (lit "int is out of range (need a 128-bit value)"))) ∧
    ((∃ u, decode self s legacy = Ok u) ↔ n < 2 ^ 128).
Proof.
  intros Hself Hover. apply reachable_configured in Hself as Hcfg.
  destruct (string_to_int_loop_over (_alphabet self) (if legacy then rev s else s) 0)
    as (n & Hn & Hnn); [|done|].
  { intros c Hc. apply Hover. destruct legacy; [by apply elem_of_rev|done]. }
  exists n. unfold decode, string_to_int. rewrite (cfg_index _ Hcfg), Hn.
  cbn [mbind result_bind]. unfold UUID_of_int.
  destruct (Z.leb_spec 0 n); [|lia]. split; [done|]. split; [done|].
  destruct (Z.ltb_spec n (2 ^ 128)); simpl.
  - split; [done|]. split; [lia|]. split; [done|]. by eexists.
  - split; [lia|]. split; [done|]. split; [intros [u [=]]|lia].
Qed.

Lemma decode_range_check_witness :
  ∃ n,
    string_to_int (lit "zzzzzzzzzzzzzzzzzzzzzz") (_alphabet default_instance)
      (Some (_alphabet_index default_instance)) = Ok n ∧
    0 ≤ n ∧
    (n < 2 ^ 128 → decode default_instance (lit "zzzzzzzzzzzzzzzzzzzzzz") false = Ok {| int := n |}) ∧
    (2 ^ 128 ≤ n →
       decode default_instance (lit "zzzzzzzzzzzzzzzzzzzzzz") false =
         Raise (ValueError (lit "int is out of range (need a 128-bit value)"))) ∧
    ((∃ u, decode default_instance (lit "zzzzzzzzzzzzzzzzzzzzzz") false = Ok u) ↔ n < 2 ^ 128).
Proof.
  apply (decode_range_check default_instance (lit "zzzzzzzzzzzzzzzzzzzzzz") false).
  - apply default_instance_reachable.
  - intros c Hc. apply list_elem_of_In in Hc. apply list_elem_of_In.
    vm_compute in Hc. vm_compute. intuition.
Defined.

(** Strings that decode to [2^128] or more: one of the padded length 22
    and one that is longer, under the default alphabet. *)
Example test_decode_out_of_range :
  decode default_instance (lit "zzzzzzzzzzzzzzzzzzzzzz") false = Raise (ValueError out_of_range) ∧
  decode default_instance (lit "32222222222222222222222") false = Raise (ValueError out_of_range) ∧
  decode default_instance (lit "22222222222222222222223") false = Ok {| int := 1 |}.
Proof. vm_compute. auto. Qed.

(** ** A failed [set_alphabet] changes nothing *)

(** C10: when [set_alphabet] raises, which it does with
    [InvalidAlphabetError] only, the object is left as it was: every slot
    keeps its value, and [encode], [decode] and [get_alphabet] behave as
    before the call. *)
Theorem set_alphabet_failure_atomic (self self' : ShortUUID) (alphabet : str)
    (dont_sort_alphabet : bool) (e : exception) :
  set_alphabet self alphabet dont_sort_alphabet = (Raise e, self') →
  e = InvalidAlphabetError more_than_one ∧
  self' = self ∧
  _alphabet self' = _alphabet self ∧
  _alphabet_str self' = _alphabet_str self ∧
  _alpha_len self' = _alpha_len self ∧
  _alphabet_index self' = _alphabet_index self ∧
  _length self' = _length self ∧
  (∀ fuel u pad_length, encode fuel self' u pad_length = encode fuel self u pad_length) ∧
  (∀ s legacy, decode self' s legacy = decode self s legacy) ∧
  get_alphabet self' = get_alphabet self.
Proof.
  intros Hset.
  destruct (set_alphabet_cases self alphabet dont_sort_alphabet) as [[_ H]|[_ H]];
    rewrite H in Hset; [|discriminate].
  injection Hset as <- <-. repeat split.
Qed.

Lemma set_alphabet_failure_atomic_witness :
  let self := default_instance in
  let self' := snd (set_alphabet default_instance (lit "1111111") false) in
  InvalidAlphabetError more_than_one = InvalidAlphabetError more_than_one ∧
  self' = self ∧
  _alphabet self' = _alphabet self ∧
  _alphabet_str self' = _alphabet_str self ∧
  _alpha_len self' = _alpha_len self ∧
  _alphabet_index self' = _alphabet_index self ∧
  _length self' = _length self ∧
  (∀ fuel u pad_length, encode fuel self' u pad_length = encode fuel self u pad_length) ∧
  (∀ s legacy, decode self' s legacy = decode self s legacy) ∧
  get_alphabet self' = get_alphabet self.
Proof.
  apply (set_alphabet_failure_atomic default_instance
           (snd (set_alphabet default_instance (lit "1111111") false))
           (lit "1111111") false).
  vm_compute. reflexivity.
Defined.

(** * Further properties of the code *)

(** ** The codec on arbitrary numbers *)

(** The string that [int_to_string] returns, for any [padding]. *)
Lemma int_to_string_spec (alphabet : str) fuel n padding :
  2 ≤ len alphabet → 0 ≤ n → (Z.to_nat (Z.log2 n) + 2 ≤ fuel)%nat →
  ∃ raw a0 k,
    symbols alphabet raw (base_digits (len alphabet) n) ∧
    alphabet !! 0%nat = Some a0 ∧
    int_to_string fuel n alphabet padding = Some (Ok (replicate k a0 ++ raw)) ∧
    k = match padding with
        | Some p => Z.to_nat (p - len raw)
        | None => 0%nat
        end.
Proof.
  intros Hsize Hn Hfuel.
  destruct (int_to_string_digits alphabet Hsize fuel n padding Hn Hfuel)
    as (raw & Hraw & Hrun).
  destruct (getitem_first alphabet Hsize) as (a0 & _ & Ha0).
  exists raw, a0. destruct padding as [p|].
  - rewrite (pad_and_reverse_Some _ _ _ a0 Ha0), rev_involutive in Hrun.
    replace (len (rev raw)) with (len raw) in Hrun by (unfold len; by rewrite length_rev).
    by eexists.
  - rewrite pad_and_reverse_None, rev_involutive in Hrun. by exists 0%nat.
Qed.

(** X1: [string_to_int] undoes [int_to_string] for every non-negative
    number, every padding and every alphabet of at least two distinct
    symbols, the index being built from the alphabet by [string_to_int]
    itself. *)
Theorem string_to_int_int_to_string (alphabet : str) (fuel : nat) (n : Z)
    (padding : option Z) :
  NoDup alphabet → 2 ≤ len alphabet → 0 ≤ n →
  (Z.to_nat (Z.log2 n) + 2 ≤ fuel)%nat →
  ∃ s, int_to_string fuel n alphabet padding = Some (Ok s) ∧
       string_to_int s alphabet None = Ok n.
Proof.
  intros Hnd Hsize Hn Hfuel.
  destruct (int_to_string_spec alphabet fuel n padding Hsize Hn Hfuel)
    as (raw & a0 & k & Hraw & Ha0 & -> & _).
  eexists. split; [done|].
  apply (string_to_int_padded alphabet Hnd a0 k raw n Hsize Hn Ha0 Hraw).
Qed.

Lemma string_to_int_int_to_string_witness :
  ∃ s, int_to_string 40 1000000007 (lit "zyx") (Some 5) = Some (Ok s) ∧
       string_to_int s (lit "zyx") None = Ok 1000000007.
Proof.
  apply (string_to_int_int_to_string (lit "zyx") 40 1000000007 (Some 5)).
  - compute_done.
  - vm_compute. discriminate.
  - lia.
  - vm_compute. lia.
Defined.

(** Without distinct symbols the round trip is lost: in ["aab"] the
    digit 0 is written [a] and [a] is read as 1. *)
Example test_duplicate_symbols :
  int_to_string 10 3 (lit "aab") None = Some (Ok (lit "aa")) ∧
  string_to_int (lit "aa") (lit "aab") None = Ok 4.
Proof. vm_compute. auto. Qed.

(** X2: without padding, [int_to_string] returns exactly [k + 1]
    symbols for a number [n] with [base ^ k <= n < base ^ (k + 1)]. *)
Theorem int_to_string_length (alphabet : str) (fuel : nat) (n k : Z) :
  2 ≤ len alphabet → 0 ≤ k →
  len alphabet ^ k ≤ n < len alphabet ^ (k + 1) →
  (Z.to_nat (Z.log2 n) + 2 ≤ fuel)%nat →
  ∃ s, int_to_string fuel n alphabet None = Some (Ok s) ∧ len s = k + 1.
Proof.
  intros Hsize Hk [Hlo Hhi] Hfuel.
  assert (0 ≤ n) as Hn by (pose proof (Z.pow_pos_nonneg (len alphabet) k); lia).
  destruct (int_to_string_spec alphabet fuel n None Hsize Hn Hfuel)
    as (raw & a0 & z & Hraw & Ha0 & -> & ->).
  eexists. split; [done|]. simpl. unfold len at 1.
  rewrite (symbols_length _ _ _ Hraw).
  pose proof (base_digits_length _ Hsize n Hn (k + 1) ltac:(lia) Hhi).
  pose proof (base_digits_length_lower _ Hsize n Hn k Hk Hlo).
  unfold len in *. lia.
Qed.

Lemma int_to_string_length_witness :
  ∃ s, int_to_string 20 255 (lit "0123456789abcdef") None = Some (Ok s) ∧ len s = 1 + 1.
Proof.
  apply (int_to_string_length (lit "0123456789abcdef") 20 255 1).
  - vm_compute. discriminate.
  - lia.
  - vm_compute. split; discriminate || reflexivity.
  - vm_compute. lia.
Defined.

(** A negative number stays negative under floor division. *)
Lemma int_to_string_loop_negative (alphabet : str) fuel : ∀ number output,
  1 ≤ len alphabet → number < 0 →
  int_to_string_loop fuel alphabet (len alphabet) number output = None.
Proof.
  induction fuel as [|fuel IH]; intros number output Hsize Hneg; [done|].
  rewrite int_to_string_loop_S. destruct (Z.eqb_spec number 0); [lia|].
  unfold divmod. destruct (Z.eqb_spec (len alphabet) 0); [lia|].
  pose proof (Z.mod_pos_bound number (len alphabet) ltac:(lia)) as Hd.
  unfold getitem. destruct (Z.ltb_spec (number mod len alphabet) 0); [lia|].
  destruct (Z.ltb_spec (number mod len alphabet) 0); [lia|].
  destruct (alphabet !! Z.to_nat (number mod len alphabet)) as [c|] eqn:Hc.
  - apply IH; [done|]. apply Z.div_lt_upper_bound; lia.
  - apply lookup_ge_None in Hc. unfold len in *. lia.
Qed.

(** X3: for a negative number and a non-empty alphabet the loop of
    [int_to_string] never ends: no bound on the loop tests yields a
    result. *)
Theorem int_to_string_negative_diverges (alphabet : str) (fuel : nat) (n : Z)
    (padding : option Z) :
  1 ≤ len alphabet → n < 0 → int_to_string fuel n alphabet padding = None.
Proof.
  intros Hsize Hneg. unfold int_to_string.
  by rewrite int_to_string_loop_negative.
Qed.

Lemma int_to_string_negative_diverges_witness :
  int_to_string 1000 (-1) DEFAULT_ALPHABET (Some 22) = None.
Proof.
  apply (int_to_string_negative_diverges DEFAULT_ALPHABET 1000 (-1) (Some 22)).
  - vm_compute. discriminate.
  - lia.
Defined.

(** X4: with fewer than two symbols [int_to_string] returns no string
    for a number other than [0]: an empty alphabet makes [divmod] raise
    [ZeroDivisionError], and with a single symbol the loop never ends. *)
Theorem int_to_string_too_few_symbols (alphabet : str) (fuel : nat) (n : Z)
    (padding : option Z) :
  n ≠ 0 → len alphabet ≤ 1 →
  int_to_string (S fuel) n alphabet padding =
    match alphabet with
    | [] => Some (Raise ZeroDivisionError)
    | _ => None
    end.
Proof.
  intros Hne Hsize. destruct alphabet as [|a [|b rest]].
  - by apply int_to_string_no_symbol.
  - unfold int_to_string. change (len [a]) with 1.
    by rewrite int_to_string_loop_one_symbol.
  - unfold len in Hsize. simpl in Hsize. lia.
Qed.

Lemma int_to_string_too_few_symbols_witness :
  int_to_string (S 99) 7 (lit "a") None = None.
Proof.
  apply (int_to_string_too_few_symbols (lit "a") 99 7 None).
  - discriminate.
  - vm_compute. discriminate.
Defined.

(** ** [encode] with a pad length, and what [decode] accepts *)

Lemma symbols_in_alphabet (alphabet : str) raw ds a0 k c :
  symbols alphabet raw ds → alphabet !! 0%nat = Some a0 →
  c ∈ replicate k a0 ++ raw → c ∈ alphabet.
Proof.
  intros Hraw Ha0 Hc. apply elem_of_app in Hc as [Hc|Hc].
  - apply elem_of_replicate in Hc as [-> _]. by eapply list_elem_of_lookup_2.
  - by eapply symbols_elem_of.
Qed.

(** X5: whatever [pad_length] is given to [encode], [decode] returns
    the UUID; the string has at least [pad_length] symbols, and exactly
    [pad_length] when that is at least the default pad length. *)
Theorem encode_pad_length_roundtrip (self : ShortUUID) (u : UUID) (p : Z) (fuel : nat) :
  reachable self → valid_uuid u → (129 ≤ fuel)%nat →
  ∃ s, encode fuel self u (Some p) = Some (Ok s) ∧
       decode self s false = Ok u ∧
       p ≤ len s ∧
       (_length self ≤ p → len s = p).
Proof.
  intros Hself Hu Hfuel. apply reachable_configured in Hself as Hcfg.
  destruct (encode_spec self u (Some p) fuel Hcfg Hu Hfuel) as (raw & a0 & Hraw & Ha0 & ->).
  eexists. split; [done|]. split; [by apply decode_encoded|]. simpl default.
  destruct (default_length_spec self Hcfg) as [Hpos Hcap].
  assert (len raw ≤ _length self) as Hraw_len.
  { unfold len at 1. rewrite (symbols_length _ _ _ Hraw).
    apply (base_digits_length _ (cfg_size _ Hcfg)); [apply Hu|lia|].
    destruct Hu. lia. }
  unfold len in *. rewrite length_app, length_replicate. lia.
Qed.

Lemma encode_pad_length_roundtrip_witness :
  ∃ s, encode 129 default_instance example_uuid (Some 30) = Some (Ok s) ∧
       decode default_instance s false = Ok example_uuid ∧
       30 ≤ len s ∧
       (_length default_instance ≤ 30 → len s = 30).
Proof.
  apply (encode_pad_length_roundtrip default_instance example_uuid 30 129).
  - apply default_instance_reachable.
  - unfold valid_uuid. simpl. lia.
  - lia.
Defined.

(** X6: every symbol of a string that [encode] returns is a symbol of
    the alphabet of the instance. *)
Theorem encode_symbols_in_alphabet (self : ShortUUID) (u : UUID)
    (pad_length : option Z) (fuel : nat) (s : str) :
  reachable self → valid_uuid u →
  encode fuel self u pad_length = Some (Ok s) →
  ∀ c, c ∈ s → c ∈ get_alphabet self.
Proof.
  intros Hself Hu Henc c Hc. apply reachable_configured in Hself as Hcfg.
  apply (encode_mono _ _ _ _ (fuel + 129)) in Henc; [|lia].
  destruct (encode_spec self u pad_length (fuel + 129) Hcfg Hu ltac:(lia))
    as (raw & a0 & Hraw & Ha0 & Hspec).
  rewrite Hspec in Henc. injection Henc as <-.
  unfold get_alphabet. rewrite (cfg_str _ Hcfg). by eapply symbols_in_alphabet.
Qed.

Lemma encode_symbols_in_alphabet_witness :
  Forall (λ c, c ∈ get_alphabet default_instance) (lit "CXc85b4rqinB7s5J52TRYb").
Proof.
  apply Forall_forall.
  apply (encode_symbols_in_alphabet default_instance example_uuid None 23).
  - apply default_instance_reachable.
  - unfold valid_uuid. simpl. lia.
  - vm_compute. reflexivity.
Defined.

(** X7: [encode] never maps two UUIDs to one string, even under
    different pad lengths. *)
Theorem encode_injective (self : ShortUUID) (u1 u2 : UUID) (p1 p2 : option Z)
    (fuel1 fuel2 : nat) (s : str) :
  reachable self → valid_uuid u1 → valid_uuid u2 →
  encode fuel1 self u1 p1 = Some (Ok s) →
  encode fuel2 self u2 p2 = Some (Ok s) →
  u1 = u2.
Proof.
  intros Hself Hu1 Hu2 H1 H2. apply reachable_configured in Hself as Hcfg.
  apply (encode_mono _ _ _ _ (fuel1 + 129)) in H1; [|lia].
  apply (encode_mono _ _ _ _ (fuel2 + 129)) in H2; [|lia].
  destruct (encode_spec self u1 p1 (fuel1 + 129) Hcfg Hu1 ltac:(lia))
    as (raw1 & a1 & Hraw1 & Ha1 & Hspec1).
  destruct (encode_spec self u2 p2 (fuel2 + 129) Hcfg Hu2 ltac:(lia))
    as (raw2 & a2 & Hraw2 & Ha2 & Hspec2).
  rewrite Hspec1 in H1. rewrite Hspec2 in H2. injection H1 as H1. injection H2 as H2.
  pose proof (decode_encoded self u1 (Z.to_nat (default (_length self) p1 - len raw1))
                raw1 a1 Hcfg Hu1 Hraw1 Ha1) as Hd1.
  pose proof (decode_encoded self u2 (Z.to_nat (default (_length self) p2 - len raw2))
                raw2 a2 Hcfg Hu2 Hraw2 Ha2) as Hd2.
  rewrite H1 in Hd1. rewrite H2 in Hd2. congruence.
Qed.

Lemma encode_injective_witness : example_uuid = example_uuid.
Proof.
  apply (encode_injective default_instance example_uuid example_uuid None (Some 22)
           23 40 (lit "CXc85b4rqinB7s5J52TRYb")).
  - apply default_instance_reachable.
  - unfold valid_uuid. simpl. lia.
  - unfold valid_uuid. simpl. lia.
  - vm_compute. reflexivity.
  - vm_compute. reflexivity.
Defined.

(** X8: [decode] with [legacy=True] reads the string backwards: it
    returns the UUID for the reverse of a string that [encode]
    returned. *)
Theorem decode_legacy_reversed (self : ShortUUID) (u : UUID) (p : option Z)
    (fuel : nat) (s : str) :
  reachable self → valid_uuid u →
  encode fuel self u p = Some (Ok s) →
  decode self (rev s) true = Ok u ∧
  ∀ t, decode self t true = decode self (rev t) false.
Proof.
  intros Hself Hu Henc. apply reachable_configured in Hself as Hcfg. split; [|done].
  apply (encode_mono _ _ _ _ (fuel + 129)) in Henc; [|lia].
  destruct (encode_spec self u p (fuel + 129) Hcfg Hu ltac:(lia))
    as (raw & a0 & Hraw & Ha0 & Hspec).
  rewrite Hspec in Henc. injection Henc as <-.
  unfold decode. rewrite rev_involutive.
  by apply (decode_encoded self u _ raw a0).
Qed.

Lemma decode_legacy_reversed_witness :
  decode default_instance (rev (lit "CXc85b4rqinB7s5J52TRYb")) true = Ok example_uuid ∧
  ∀ t, decode default_instance t true = decode default_instance (rev t) false.
Proof.
  apply (decode_legacy_reversed default_instance example_uuid None 23).
  - apply default_instance_reachable.
  - unfold valid_uuid. simpl. lia.
  - vm_compute. reflexivity.
Defined.

(** X9: leading copies of the first symbol of the alphabet do not
    change what [decode] returns, be it a UUID or an exception. *)
Theorem decode_leading_first_symbol (self : ShortUUID) (a0 : N) (k : nat) (s : str) :
  reachable self → _alphabet self !! 0%nat = Some a0 →
  decode self (replicate k a0 ++ s) false = decode self s false.
Proof.
  intros Hself Ha0. apply reachable_configured in Hself as Hcfg.
  unfold decode, string_to_int. rewrite string_to_int_loop_app.
  rewrite (cfg_index _ Hcfg).
  by rewrite (string_to_int_loop_zeros _ (cfg_nodup _ Hcfg) a0 k Ha0).
Qed.

Lemma decode_leading_first_symbol_witness :
  decode default_instance (replicate 5 50%N ++ lit "CXc85b4rqinB7s5J52TRYb") false =
  decode default_instance (lit "CXc85b4rqinB7s5J52TRYb") false.
Proof.
  apply (decode_leading_first_symbol default_instance 50%N 5).
  - apply default_instance_reachable.
  - vm_compute. reflexivity.
Defined.

(** ** Strings over the alphabet *)

Lemma index_from_range (alphabet : str) : ∀ idx m c i,
  index_from idx alphabet m !! c = Some i →
  m !! c = Some i ∨ idx ≤ i < idx + len alphabet.
Proof.
  induction alphabet as [|a rest IH]; intros idx m c i Hi; simpl in Hi; [by left|].
  unfold len in *. simpl length.
  destruct (IH _ _ _ _ Hi) as [Hm|Hle]; [|right; lia].
  destruct (decide (a = c)) as [->|Hne].
  - rewrite lookup_insert_eq in Hm. injection Hm as <-. right. lia.
  - rewrite lookup_insert_ne in Hm by done. by left.
Qed.

(** A string of [k] symbols of the alphabet decodes to a number below
    [base ^ k]. *)
Lemma string_to_int_loop_bound (alphabet : str) s : ∀ acc,
  (∀ c, c ∈ s → c ∈ alphabet) → 0 ≤ acc →
  ∃ n, string_to_int_loop (len alphabet) (make_index alphabet) s acc = Ok n ∧
       acc * len alphabet ^ len s ≤ n < (acc + 1) * len alphabet ^ len s.
Proof.
  induction s as [|c s IH]; intros acc Hover Hacc.
  - exists acc. split; [done|]. change (len (@nil N)) with 0. rewrite Z.pow_0_r. lia.
  - simpl. destruct (proj2 (make_index_is_Some alphabet c)) as [i Hi].
    { apply Hover, elem_of_cons. by left. }
    rewrite Hi. destruct (index_from_range _ _ _ _ _ Hi) as [Hm|Hrange]; [done|].
    destruct (IH (acc * len alphabet + i)) as (n & -> & Hn).
    { intros c' Hc'. apply Hover, elem_of_cons. by right. }
    { nia. }
    exists n. split; [done|].
    replace (len (c :: s)) with (Z.succ (len s)) by (unfold len; simpl length; lia).
    rewrite Z.pow_succ_r by (unfold len; lia).
    assert (0 ≤ len alphabet ^ len s) by (apply Z.pow_nonneg; lia). nia.
Qed.

(** X10: a string over the alphabet that is shorter than the default
    pad length always decodes to a UUID, whose integer is below
    [base ^ len(s)]. *)
Theorem decode_short_string (self : ShortUUID) (s : str) :
  reachable self → (∀ c, c ∈ s → c ∈ get_alphabet self) →
  len s < _length self →
  ∃ u, decode self s false = Ok u ∧ valid_uuid u ∧
       int u < len (get_alphabet self) ^ len s.
Proof.
  intros Hself Hover Hlen. apply reachable_configured in Hself as Hcfg.
  unfold get_alphabet in *. rewrite (cfg_str _ Hcfg) in *.
  destruct (string_to_int_loop_bound (_alphabet self) s 0 Hover ltac:(done))
    as (n & Hn & Hlo & Hhi).
  rewrite (cfg_length _ Hcfg) in Hlen.
  destruct (ceil_log_spec (len (_alphabet self)) (2 ^ 128) (cfg_size _ Hcfg) ltac:(done))
    as (_ & _ & Hlow).
  specialize (Hlow (len s) ltac:(unfold len in *; lia)).
  exists {| int := n |}. unfold decode, string_to_int, valid_uuid.
  rewrite (cfg_index _ Hcfg), Hn. cbn [mbind result_bind]. unfold UUID_of_int. simpl.
  destruct (Z.leb_spec 0 n); [|lia]. destruct (Z.ltb_spec n (2 ^ 128)); [|lia].
  split; [done|]. lia.
Qed.

Lemma decode_short_string_witness :
  ∃ u, decode default_instance (lit "zzzzzzzzzzzzzzzzzzzzz") false = Ok u ∧ valid_uuid u ∧
       int u < len (get_alphabet default_instance) ^ len (lit "zzzzzzzzzzzzzzzzzzzzz").
Proof.
  apply (decode_short_string default_instance (lit "zzzzzzzzzzzzzzzzzzzzz")).
  - apply default_instance_reachable.
  - intros c Hc. apply list_elem_of_In in Hc. apply list_elem_of_In.
    vm_compute in Hc. vm_compute. intuition.
  - vm_compute. reflexivity.
Defined.

(** Every string over the alphabet spells some digits. *)
Lemma symbols_exist (alphabet : str) s :
  (∀ c, c ∈ s → c ∈ alphabet) →
  ∃ ds, symbols alphabet s ds ∧ Forall (λ d, 0 ≤ d < len alphabet) ds.
Proof.
  induction s as [|c s IH]; intros Hover; [exists []; split; constructor|].
  destruct IH as (ds & Hds & Hrange).
  { intros c' Hc'. apply Hover, elem_of_cons. by right. }
  destruct (list_elem_of_lookup_1 alphabet c) as [i Hi].
  { apply Hover, elem_of_cons. by left. }
  exists (Z.of_nat i :: ds). pose proof (lookup_lt_Some _ _ _ Hi). split.
  - constructor; [|done]. rewrite Nat2Z.id. split; [lia|done].
  - constructor; [unfold len; lia|done].
Qed.

Lemma symbols_functional (alphabet : str) raw1 raw2 ds :
  symbols alphabet raw1 ds → symbols alphabet raw2 ds → raw1 = raw2.
Proof.
  intros H1. revert raw2. induction H1 as [|c d raw1 ds [_ Hc] _ IH]; intros raw2 H2.
  - by inversion H2.
  - inversion H2 as [|c' d' raw2' ds' [_ Hc'] Hrest]; subst. f_equal; [congruence|by apply IH].
Qed.

(** Digits split into their leading zeros and the rest. *)
Lemma leading_zeros (ds : list Z) :
  ∃ z ds', ds = replicate z 0 ++ ds' ∧ head ds' ≠ Some 0.
Proof.
  induction ds as [|d ds (z & ds' & -> & Hhead)]; [by exists 0%nat, []|].
  destruct (Z.eq_dec d 0) as [->|Hne].
  - by exists (S z), ds'.
  - exists 0%nat, (d :: replicate z 0 ++ ds'). split; [done|]. simpl. congruence.
Qed.

Lemma eval_digits_leading_zeros base z ds :
  eval_digits base (replicate z 0 ++ ds) = eval_digits base ds.
Proof.
  unfold eval_digits. rewrite fold_left_app. f_equal.
  induction z as [|z IH]; [done|]. exact IH.
Qed.

Lemma symbols_zeros (alphabet : str) a0 s z :
  alphabet !! 0%nat = Some a0 → symbols alphabet s (replicate z 0) → s = replicate z a0.
Proof.
  intros Ha0. revert s. induction z as [|z IH]; intros s Hs; inversion Hs as [|c d s' ds' [_ Hc] Hrest]; subst; [done|].
  simpl. f_equal; [|by apply IH]. change (Z.to_nat 0) with 0%nat in Hc. congruence.
Qed.

(** X11: for a string [s] over the alphabet, no longer than the default
    pad length, that [decode] accepts, [encode] returns [s] padded on
    the left with the first symbol of the alphabet to the default pad
    length, hence [s] itself when [s] has that length. *)
Theorem encode_decode_canonical (self : ShortUUID) (s : str) (u : UUID) (a0 : N)
    (fuel : nat) :
  reachable self → (∀ c, c ∈ s → c ∈ get_alphabet self) →
  len s ≤ _length self → _alphabet self !! 0%nat = Some a0 →
  decode self s false = Ok u → (129 ≤ fuel)%nat →
  encode fuel self u None =
    Some (Ok (replicate (Z.to_nat (_length self - len s)) a0 ++ s)).
Proof.
  intros Hself Hover Hlen Ha0 Hdec Hfuel. apply reachable_configured in Hself as Hcfg.
  unfold get_alphabet in *. rewrite (cfg_str _ Hcfg) in *.
  pose proof (cfg_size _ Hcfg) as Hsize.
  destruct (symbols_exist _ s Hover) as (ds & Hds & Hrange).
  destruct (leading_zeros ds) as (z & ds' & -> & Hhead).
  apply Forall_app in Hrange as [_ Hrange'].
  apply Forall2_app_inv_r in Hds as (s1 & s2 & Hs1 & Hs2 & ->).
  apply (symbols_zeros _ a0) in Hs1 as ->; [|done].
  assert (u = {| int := eval_digits (len (_alphabet self)) ds' |} ∧ valid_uuid u) as [-> Hu].
  { unfold decode in Hdec. rewrite (cfg_index _ Hcfg) in Hdec.
    unfold string_to_int in Hdec.
    rewrite string_to_int_loop_app in Hdec.
    rewrite (string_to_int_loop_zeros _ (cfg_nodup _ Hcfg) a0 z Ha0) in Hdec.
    cbn [mbind result_bind] in Hdec.
    rewrite (string_to_int_loop_symbols _ (cfg_nodup _ Hcfg) _ _ Hs2) in Hdec.
    cbn [mbind result_bind] in Hdec. unfold UUID_of_int in Hdec.
    fold (eval_digits (len (_alphabet self)) ds') in Hdec.
    destruct (Z.leb_spec 0 (eval_digits (len (_alphabet self)) ds')); [|done].
    destruct (Z.ltb_spec (eval_digits (len (_alphabet self)) ds') (2 ^ 128)); [|done].
    injection Hdec as <-. split; [done|]. unfold valid_uuid. simpl. lia. }
  destruct (encode_spec self _ None fuel Hcfg Hu Hfuel) as (raw & a0' & Hraw & Ha0' & ->).
  simpl int in Hraw. rewrite (base_digits_unique _ Hsize _ Hrange' Hhead) in Hraw.
  rewrite (symbols_functional _ _ _ _ Hraw Hs2).
  assert (a0' = a0) as -> by congruence. simpl default.
  rewrite app_assoc, <- replicate_add.
  replace (Z.to_nat (_length self - len s2))
    with (Z.to_nat (_length self - len (replicate z a0 ++ s2)) + z)%nat; [done|].
  unfold len in *. rewrite length_app, length_replicate in *. lia.
Qed.

Lemma encode_decode_canonical_witness :
  encode 129 default_instance {| int := 105883 |} None =
    Some (Ok (replicate (Z.to_nat (_length default_instance - len (lit "abc"))) 50%N
              ++ lit "abc")).
Proof.
  apply (encode_decode_canonical default_instance (lit "abc") {| int := 105883 |} 50%N 129).
  - apply default_instance_reachable.
  - intros c Hc. apply list_elem_of_In in Hc. apply list_elem_of_In.
    vm_compute in Hc. vm_compute. intuition.
  - vm_compute. discriminate.
  - vm_compute. reflexivity.
  - vm_compute. reflexivity.
  - lia.
Defined.

(** ** The default pad length and [encoded_length] *)

(** X12: the default pad length lies between 1 and 128 and is tight:
    the largest UUID, encoded with [pad_length=0] and so without padding,
    has exactly that many symbols. *)
Theorem default_pad_length_tight (self : ShortUUID) (fuel : nat) :
  reachable self → (129 ≤ fuel)%nat →
  1 ≤ _length self ≤ 128 ∧
  ∃ s, encode fuel self {| int := 2 ^ 128 - 1 |} (Some 0) = Some (Ok s) ∧
       len s = _length self.
Proof.
  intros Hself Hfuel. apply reachable_configured in Hself as Hcfg.
  pose proof (cfg_size _ Hcfg) as Hsize.
  destruct (default_length_spec self Hcfg) as [Hpos Hcap].
  destruct (ceil_log_spec (len (_alphabet self)) (2 ^ 128) Hsize ltac:(done))
    as (_ & _ & Hlow). rewrite <- (cfg_length _ Hcfg) in Hlow.
  assert (_length self ≤ 128) as Hmax.
  { destruct (Z_lt_le_dec 128 (_length self)) as [Hgt|]; [|done].
    specialize (Hlow 128 ltac:(lia)).
    pose proof (Z.pow_le_mono_l 2 (len (_alphabet self)) 128 ltac:(lia)). lia. }
  split; [lia|].
  assert (valid_uuid {| int := 2 ^ 128 - 1 |}) as Hu by (unfold valid_uuid; simpl; lia).
  destruct (encode_spec self _ (Some 0) fuel Hcfg Hu Hfuel) as (raw & a0 & Hraw & Ha0 & ->).
  simpl default. simpl int in Hraw.
  replace (Z.to_nat (0 - len raw)) with 0%nat by (unfold len; lia).
  eexists. split; [done|]. simpl. unfold len at 1. rewrite (symbols_length _ _ _ Hraw).
  specialize (Hlow (_length self - 1) ltac:(lia)).
  pose proof (base_digits_length _ Hsize (2 ^ 128 - 1) ltac:(lia) (_length self)
                ltac:(lia) ltac:(lia)).
  pose proof (base_digits_length_lower _ Hsize (2 ^ 128 - 1) ltac:(lia) (_length self - 1)
                ltac:(lia) ltac:(lia)).
  unfold len in *. lia.
Qed.

Lemma default_pad_length_tight_witness :
  1 ≤ _length default_instance ≤ 128 ∧
  ∃ s, encode 129 default_instance {| int := 2 ^ 128 - 1 |} (Some 0) = Some (Ok s) ∧
       len s = _length default_instance.
Proof.
  apply (default_pad_length_tight default_instance 129).
  - apply default_instance_reachable.
  - lia.
Defined.



(** ** The state of an instance *)

Lemma make_index_spec (alphabet : str) c i :
  NoDup alphabet →
  make_index alphabet !! c = Some i ↔ 0 ≤ i ∧ alphabet !! Z.to_nat i = Some c.
Proof.
  intros Hnd. split.
  - intros Hi. assert (c ∈ alphabet) as Hc by (apply make_index_is_Some; by eexists).
    apply list_elem_of_lookup_1 in Hc as [k Hk].
    rewrite (make_index_lookup _ _ _ Hnd Hk) in Hi. injection Hi as <-.
    split; [lia|]. by rewrite Nat2Z.id.
  - intros [Hi Hc]. rewrite (make_index_lookup _ _ _ Hnd Hc). f_equal. lia.
Qed.

(** X14: the slots of every instance that a program can hold agree:
    the alphabet has at least two symbols and no duplicate,
    [get_alphabet()] is the alphabet, [_alpha_len] is its length, and the
    index map sends exactly the symbol at position [i] to [i]. *)
Theorem reachable_invariant (self : ShortUUID) :
  reachable self →
  NoDup (_alphabet self) ∧
  2 ≤ len (_alphabet self) ∧
  get_alphabet self = _alphabet self ∧
  _alpha_len self = len (_alphabet self) ∧
  ∀ c i, _alphabet_index self !! c = Some i ↔
         0 ≤ i ∧ _alphabet self !! Z.to_nat i = Some c.
Proof.
  intros Hself. apply reachable_configured in Hself as Hcfg.
  split; [apply Hcfg|]. split; [apply Hcfg|]. split; [apply Hcfg|].
  split; [apply Hcfg|]. intros c i. rewrite (cfg_index _ Hcfg).
  apply make_index_spec, Hcfg.
Qed.

Lemma reachable_invariant_witness :
  NoDup (_alphabet default_instance) ∧
  2 ≤ len (_alphabet default_instance) ∧
  get_alphabet default_instance = _alphabet default_instance ∧
  _alpha_len default_instance = len (_alphabet default_instance) ∧
  ∀ c i, _alphabet_index default_instance !! c = Some i ↔
         0 ≤ i ∧ _alphabet default_instance !! Z.to_nat i = Some c.
Proof. apply (reachable_invariant default_instance), default_instance_reachable. Defined.

Lemma configured_eq self : configured self → self = configured_with (_alphabet self).
Proof.
  intros [_ _ Hstr Hlen Hidx Hpad]. destruct self as [a astr alen aidx apad].
  simpl in *. unfold configured_with. by subst.
Qed.

(** X15: [set_alphabet(get_alphabet(), dont_sort_alphabet=True)]
    leaves an instance as it is; in the default mode the call leaves it
    as it is exactly when its alphabet is in increasing order. *)
Theorem set_alphabet_own_alphabet (self : ShortUUID) :
  reachable self →
  set_alphabet self (get_alphabet self) true = (Ok (), self) ∧
  (set_alphabet self (get_alphabet self) false = (Ok (), self) ↔
   StronglySorted N.lt (get_alphabet self)).
Proof.
  intros Hself. apply reachable_configured in Hself as Hcfg.
  pose proof (configured_eq self Hcfg) as Heq.
  unfold get_alphabet. rewrite (cfg_str _ Hcfg).
  assert (∀ d, normalized (_alphabet self) d = _alphabet self →
            set_alphabet self (_alphabet self) d = (Ok (), self)) as Hsame.
  { intros d Hnorm.
    destruct (set_alphabet_cases self (_alphabet self) d) as [[Hle _]|[_ ->]].
    - rewrite Hnorm in Hle. pose proof (cfg_size _ Hcfg). lia.
    - by rewrite Hnorm, <- Heq. }
  split; [|split].
  - apply Hsame. simpl. rewrite fromkeys_first_occurrences.
    apply first_occurrences_id, Hcfg.
  - intros Hset.
    destruct (set_alphabet_cases self (_alphabet self) false) as [[_ H]|[_ H]];
      rewrite H in Hset; [done|]. injection Hset as Hset.
    apply (f_equal _alphabet) in Hset. simpl in Hset. rewrite <- Hset.
    apply sorted_set_lt.
  - intros Hsorted. apply Hsame. simpl. by apply sorted_set_id.
Qed.

Lemma set_alphabet_own_alphabet_witness :
  set_alphabet default_instance (get_alphabet default_instance) true =
    (Ok (), default_instance) ∧
  (set_alphabet default_instance (get_alphabet default_instance) false =
     (Ok (), default_instance) ↔
   StronglySorted N.lt (get_alphabet default_instance)).
Proof. apply (set_alphabet_own_alphabet default_instance), default_instance_reachable. Defined.

(** An instance whose alphabet is not in increasing order. *)
Example test_set_alphabet_resorts :
  ∃ self, init (Some (lit "ba")) true = Ok self ∧ get_alphabet self = lit "ba" ∧
    get_alphabet (snd (set_alphabet self (get_alphabet self) false)) = lit "ab".
Proof. eexists. split; [vm_compute; reflexivity|]. vm_compute. auto. Qed.

(** X16: in the default mode [set_alphabet] looks at the set of the
    symbols only: inputs with the same symbols, in any order and with
    any repetitions, give the same outcome and the same object. *)
Theorem set_alphabet_sorted_ignores_order (self : ShortUUID) (A B : str) :
  (∀ x, x ∈ A ↔ x ∈ B) →
  set_alphabet self A false = set_alphabet self B false.
Proof.
  intros Hsame. unfold set_alphabet. by rewrite (sorted_set_ext A B Hsame).
Qed.

Lemma set_alphabet_sorted_ignores_order_witness :
  set_alphabet default_instance (lit "cab") false =
  set_alphabet default_instance (lit "abcabc") false.
Proof.
  apply (set_alphabet_sorted_ignores_order default_instance (lit "cab") (lit "abcabc")).
  intros x. rewrite !list_elem_of_In. vm_compute. tauto.
Defined.

(** X17: with [dont_sort_alphabet=True] and an input of at least two
    symbols without duplicates, the alphabet is the input itself, and the
    symbol at position [i] of the input is the digit [i]. *)
Theorem set_alphabet_keeps_order (self : ShortUUID) (A : str) :
  NoDup A → 2 ≤ len A →
  ∃ self', set_alphabet self A true = (Ok (), self') ∧
    get_alphabet self' = A ∧
    ∀ i c, A !! i = Some c → _alphabet_index self' !! c = Some (Z.of_nat i).
Proof.
  intros Hnd Hsize.
  assert (normalized A true = A) as Hnorm.
  { simpl. rewrite fromkeys_first_occurrences. by apply first_occurrences_id. }
  exists (configured_with A). split; [|split].
  - destruct (set_alphabet_cases self A true) as [[Hle _]|[_ H]];
      rewrite Hnorm in *; [lia|done].
  - done.
  - intros i c Hi. simpl. by apply make_index_lookup.
Qed.

Lemma set_alphabet_keeps_order_witness :
  ∃ self', set_alphabet default_instance (lit "zyx") true = (Ok (), self') ∧
    get_alphabet self' = lit "zyx" ∧
    ∀ i c, lit "zyx" !! i = Some c → _alphabet_index self' !! c = Some (Z.of_nat i).
Proof.
  apply (set_alphabet_keeps_order default_instance (lit "zyx")).
  - compute_done.
  - vm_compute. discriminate.
Defined.

(** ** Random strings *)

Lemma example_library_ok : library_ok example_library.
Proof.
  split; simpl.
  - intros k n Hn. apply Z.mod_pos_bound. lia.
  - unfold valid_uuid. simpl. lia.
  - intros namespace name. unfold valid_uuid. simpl. apply Z.mod_pos_bound. lia.
Qed.

Lemma choice_in_alphabet lib k (alphabet : str) :
  library_ok lib → 1 ≤ len alphabet →
  ∃ c, choice lib k alphabet = Ok c ∧ c ∈ alphabet.
Proof.
  intros Hlib Hsize. unfold choice. destruct (Z.eqb_spec (len alphabet) 0); [lia|].
  pose proof (randbelow_range lib Hlib k (len alphabet) ltac:(lia)) as Hr.
  unfold getitem. destruct (Z.ltb_spec (randbelow lib k (len alphabet)) 0); [lia|].
  destruct (Z.ltb_spec (randbelow lib k (len alphabet)) 0); [lia|].
  destruct (alphabet !! Z.to_nat (randbelow lib k (len alphabet))) as [c|] eqn:Hc.
  - exists c. split; [done|]. by eapply list_elem_of_lookup_2.
  - apply lookup_ge_None in Hc. unfold len in *. lia.
Qed.

Lemma random_chars_spec lib (alphabet : str) count : ∀ k,
  library_ok lib → 1 ≤ len alphabet →
  ∃ parts, random_chars lib alphabet k count = Ok parts ∧
    length parts = count ∧ ∀ c, c ∈ parts → c ∈ alphabet.
Proof.
  induction count as [|count IH]; intros k Hlib Hsize.
  - exists []. split; [done|]. split; [done|]. intros c Hc. by apply elem_of_nil in Hc.
  - simpl. destruct (choice_in_alphabet lib k alphabet Hlib Hsize) as (c & -> & Hc).
    destruct (IH (S k) Hlib Hsize) as (parts & -> & Hlen & Hin).
    exists (c :: parts). split; [done|]. split; [simpl; lia|].
    intros c' Hc'. apply elem_of_cons in Hc' as [->|Hc']; [done|by apply Hin].
Qed.

Lemma random_spec (lib : library) (self : ShortUUID) (length : option Z) :
  library_ok lib → configured self →
  ∃ s, random lib self length = Ok s ∧
       len s = Z.max 0 (default (_length self) length) ∧
       ∀ c, c ∈ s → c ∈ get_alphabet self.
Proof.
  intros Hlib Hcfg.
  unfold random.
  replace (match length with Some n => n | None => _length self end)
    with (default (_length self) length) by by destruct length.
  destruct (random_chars_spec lib (_alphabet self)
              (Z.to_nat (default (_length self) length)) 0 Hlib) as (parts & -> & Hlen & Hin).
  { pose proof (cfg_size _ Hcfg). lia. }
  cbn [mbind result_bind]. rewrite join_chars. exists parts. split; [done|].
  unfold get_alphabet. rewrite (cfg_str _ Hcfg). split; [unfold len; lia|done].
Qed.

(** X18: [random(length)] returns exactly [length] symbols (none for a
    negative [length], the default pad length when [length] is absent),
    and each of them is a symbol of the alphabet of the instance. *)
Theorem random_length_and_symbols (lib : library) (self : ShortUUID)
    (length : option Z) :
  library_ok lib → reachable self →
  ∃ s, random lib self length = Ok s ∧
       len s = Z.max 0 (default (_length self) length) ∧
       ∀ c, c ∈ s → c ∈ get_alphabet self.
Proof.
  intros Hlib Hself. apply random_spec; [done|]. by apply reachable_configured.
Qed.

Lemma random_length_and_symbols_witness :
  ∃ s, random example_library default_instance (Some 99) = Ok s ∧
       len s = Z.max 0 (default (_length default_instance) (Some 99)) ∧
       ∀ c, c ∈ s → c ∈ get_alphabet default_instance.
Proof.
  apply (random_length_and_symbols example_library default_instance (Some 99)).
  - apply example_library_ok.
  - apply default_instance_reachable.
Defined.

Example test_random_default_length :
  len <$> (λ r, match r with Ok s => Some s | Raise _ => None end)
            (random example_library default_instance None) = Some 22.
Proof. vm_compute. reflexivity. Qed.

(** ** Generated UUIDs *)

Lemma startswith_spec (s prefix : str) :
  startswith s prefix = true ↔ ∃ rest, s = prefix ++ rest.
Proof.
  revert s. induction prefix as [|p prefix IH]; intros s; simpl.
  - split; [intros _; by exists s|by destruct s].
  - destruct s as [|c s]; [split; [done|intros [rest [=]]]|].
    simpl. rewrite andb_true_iff, N.eqb_eq, IH. split.
    + intros [-> [rest ->]]. by exists rest.
    + intros [rest [= -> ->]]. split; [done|by exists rest].
Qed.

(** X19: [uuid(name)] encodes one generated UUID with the default pad
    length: [uuid4()] when there is no name, [uuid5] in the URL namespace
    when the lower-cased name starts with [http://] or [https://], and
    [uuid5] in the DNS namespace otherwise.  The string has the default
    pad length and [decode] returns the generated UUID. *)
Theorem uuid_encodes_generated (lib : library) (self : ShortUUID)
    (name : option str) (fuel : nat) :
  library_ok lib → reachable self → (129 ≤ fuel)%nat →
  ∃ u s,
    (name = None → u = uuid4 lib) ∧
    (∀ nm rest, name = Some nm →
       lower lib nm = lit "http://" ++ rest ∨ lower lib nm = lit "https://" ++ rest →
       u = uuid5 lib NAMESPACE_URL nm) ∧
    (∀ nm, name = Some nm →
       (∀ rest, lower lib nm ≠ lit "http://" ++ rest ∧
                lower lib nm ≠ lit "https://" ++ rest) →
       u = uuid5 lib NAMESPACE_DNS nm) ∧
    uuid lib fuel self name None = Some (Ok s) ∧
    len s = _length self ∧
    decode self s false = Ok u.
Proof.
  intros Hlib Hself Hfuel. apply reachable_configured in Hself as Hcfg.
  set (u := match name with
            | None => uuid4 lib
            | Some nm =>
                if startswith (lower lib nm) (lit "http://")
                   || startswith (lower lib nm) (lit "https://")
                then uuid5 lib NAMESPACE_URL nm
                else uuid5 lib NAMESPACE_DNS nm
            end).
  assert (valid_uuid u) as Hu.
  { unfold u. destruct name as [nm|]; [|apply Hlib].
    destruct (_ || _); apply Hlib. }
  destruct (encode_spec self u (Some (_length self)) fuel Hcfg Hu Hfuel)
    as (raw & a0 & Hraw & Ha0 & Henc).
  exists u. eexists. split; [|split; [|split; [|split; [|split]]]].
  - intros ->. done.
  - intros nm rest -> Hprefix. unfold u.
    assert (startswith (lower lib nm) (lit "http://")
            || startswith (lower lib nm) (lit "https://") = true) as ->; [|done].
    apply orb_true_iff. destruct Hprefix as [H|H]; [left|right];
      apply startswith_spec; by exists rest.
  - intros nm -> Hnone. unfold u.
    assert (startswith (lower lib nm) (lit "http://")
            || startswith (lower lib nm) (lit "https://") = false) as ->; [|done].
    apply orb_false_iff. split; apply not_true_is_false; intros H;
      apply startswith_spec in H as [rest H]; by destruct (Hnone rest).
  - unfold uuid. fold u. exact Henc.
  - simpl default.
    destruct (default_length_spec self Hcfg) as [Hpos Hcap].
    assert (len raw ≤ _length self) as Hraw_len.
    { unfold len at 1. rewrite (symbols_length _ _ _ Hraw).
      apply (base_digits_length _ (cfg_size _ Hcfg)); [apply Hu|lia|].
      destruct Hu. lia. }
    unfold len in *. rewrite length_app, length_replicate. lia.
  - by apply decode_encoded.
Qed.

Lemma uuid_encodes_generated_witness :
  ∃ u s,
    (Some (lit "http://www.example.com/") = None → u = uuid4 example_library) ∧
    (∀ nm rest, Some (lit "http://www.example.com/") = Some nm →
       lower example_library nm = lit "http://" ++ rest ∨
       lower example_library nm = lit "https://" ++ rest →
       u = uuid5 example_library NAMESPACE_URL nm) ∧
    (∀ nm, Some (lit "http://www.example.com/") = Some nm →
       (∀ rest, lower example_library nm ≠ lit "http://" ++ rest ∧
                lower example_library nm ≠ lit "https://" ++ rest) →
       u = uuid5 example_library NAMESPACE_DNS nm) ∧
    uuid example_library 129 default_instance (Some (lit "http://www.example.com/")) None
      = Some (Ok s) ∧
    len s = _length default_instance ∧
    decode default_instance s false = Ok u.
Proof.
  apply (uuid_encodes_generated example_library default_instance
           (Some (lit "http://www.example.com/")) 129).
  - apply example_library_ok.
  - apply default_instance_reachable.
  - lia.
Defined.

(** ** The Django field *)

(** X20: when no [max_length] is given, the [length] is not negative
    and the alphabet (the default one when absent) has at least two
    distinct symbols, every value that [_generate_uuid] returns is the
    prefix followed by [length] symbols of the alphabet, and has exactly
    the [max_length] that [__init__] passes on. *)
Theorem generate_uuid_fits_max_length (lib : library) (kw : django_fields.kwargs) :
  library_ok lib →
  django_fields.kw_max_length kw = None →
  0 ≤ default 22 (django_fields.kw_length kw) →
  2 ≤ len (normalized (default DEFAULT_ALPHABET (django_fields.kw_alphabet kw))
             (default false (django_fields.kw_dont_sort_alphabet kw))) →
  let field := django_fields.__init__ kw in
  ∃ r, django_fields._generate_uuid lib field = Ok (django_fields.prefix field ++ r) ∧
       len r = django_fields.length field ∧
       len (django_fields.prefix field ++ r) = django_fields.max_length field ∧
       ∀ c, c ∈ r → c ∈ default DEFAULT_ALPHABET (django_fields.kw_alphabet kw).
Proof.
  intros Hlib Hmax Hlength Hsize field.
  unfold django_fields._generate_uuid. simpl.
  destruct (init_cases (django_fields.kw_alphabet kw)
              (default false (django_fields.kw_dont_sort_alphabet kw)))
    as [[Hle _]|[_ Hinit]]; [lia|]. rewrite Hinit. cbn [mbind result_bind].
  set (su := configured_with _) in *.
  assert (configured su) as Hsu by (by apply configured_with_ok).
  destruct (random_spec lib su
              (Some (default 22 (django_fields.kw_length kw))) Hlib Hsu)
    as (r & -> & Hlen & Hin).
  cbn [mbind result_bind]. exists r. simpl default in Hlen. split; [done|].
  split; [lia|]. split.
  - rewrite Hmax. unfold len in *. rewrite length_app. lia.
  - intros c Hc. apply Hin in Hc. unfold su in Hc.
    rewrite get_alphabet_configured_with in Hc. by apply normalized_elem_of in Hc.
Qed.

Lemma generate_uuid_fits_max_length_witness :
  let kw := {| django_fields.kw_length := Some 12;
               django_fields.kw_prefix := Some (lit "id_");
               django_fields.kw_dont_sort_alphabet := None;
               django_fields.kw_max_length := None;
               django_fields.kw_alphabet := Some (lit "abcdef") |} in
  let field := django_fields.__init__ kw in
  ∃ r, django_fields._generate_uuid example_library field =
         Ok (django_fields.prefix field ++ r) ∧
       len r = django_fields.length field ∧
       len (django_fields.prefix field ++ r) = django_fields.max_length field ∧
       ∀ c, c ∈ r → c ∈ default DEFAULT_ALPHABET (django_fields.kw_alphabet kw).
Proof.
  intros kw.
  apply (generate_uuid_fits_max_length example_library kw).
  - apply example_library_ok.
  - reflexivity.
  - simpl. lia.
  - vm_compute. discriminate.
Defined.

(** X21: [__init__] of the field accepts any alphabet; with an alphabet
    of fewer than two distinct symbols every call of [_generate_uuid]
    raises [InvalidAlphabetError]. *)
Theorem generate_uuid_invalid_alphabet (lib : library) (kw : django_fields.kwargs) :
  len (normalized (default DEFAULT_ALPHABET (django_fields.kw_alphabet kw))
         (default false (django_fields.kw_dont_sort_alphabet kw))) ≤ 1 →
  django_fields.alphabet (django_fields.__init__ kw) = django_fields.kw_alphabet kw ∧
  django_fields._generate_uuid lib (django_fields.__init__ kw) =
    Raise (InvalidAlphabetError more_than_one).
Proof.
  intros Hsize. split; [done|]. unfold django_fields._generate_uuid. simpl.
  destruct (init_cases (django_fields.kw_alphabet kw)
              (default false (django_fields.kw_dont_sort_alphabet kw)))
    as [[_ ->]|[Hge _]]; [done|lia].
Qed.

Lemma generate_uuid_invalid_alphabet_witness :
  let kw := {| django_fields.kw_length := None;
               django_fields.kw_prefix := None;
               django_fields.kw_dont_sort_alphabet := Some true;
               django_fields.kw_max_length := None;
               django_fields.kw_alphabet := Some (lit "xxxx") |} in
  django_fields.alphabet (django_fields.__init__ kw) = django_fields.kw_alphabet kw ∧
  django_fields._generate_uuid example_library (django_fields.__init__ kw) =
    Raise (InvalidAlphabetError more_than_one).
Proof.
  intros kw. apply (generate_uuid_invalid_alphabet example_library kw).
  vm_compute. discriminate.
Defined.
